(** * go-netty support layer: byte extraction (utils/reader.go) and the
      size-classed pool

    A shallow embedding of [utils/reader.go] over an explicit store of byte
    arrays, so that "returned directly, no copy" and "newly allocated" are
    statements about backing arrays and not only about contents, followed
    by a model of the size-classed pool. *)

From Stdlib Require Import ZArith String.
From Stdlib.Strings Require Import Byte.
From stdpp Require Import base gmap list strings.

Local Open Scope Z_scope.

(** ** Go values: errors, panics, outcomes *)

(** The [error] values this code produces or passes through. *)
Inductive error : Type :=
| ErrShortWrite                  (* io.ErrShortWrite *)
| EOF                            (* io.EOF *)
| Errorf (msg : string).         (* fmt.Errorf / errors.New *)

(** A call either returns or panics. *)
Inductive outcome (A : Type) : Type :=
| Returns (a : A)
| Panics (why : string).
Arguments Returns {A} a.
Arguments Panics {A} why.

(** ** Byte slices over a store of backing arrays *)

Module Mem.

(** Identity of a backing array. *)
Abbreviation loc := positive.

(** A slice header: pointer (backing array and offset into it), length and
    capacity.  The capacity is kept as the spare room behind the length
    ([cap = len + room]), so that [len <= cap] holds for every header, as
    it does in Go.  The nil slice has no pointer. *)
Record slice : Type := Slice {
  arr  : option loc;
  off  : nat;
  len  : nat;
  room : nat
}.

Definition cap (s : slice) : nat := (len s + room s)%nat.

Definition nil_slice : slice := Slice None 0 0 0.

(** [nil == s] *)
Definition is_nil (s : slice) : bool :=
  match arr s with None => true | Some _ => false end.

(** The store: backing arrays by identity. *)
Abbreviation heap := (gmap loc (list byte)).

Definition array_of (h : heap) (l : loc) : list byte := default [] (h !! l).

(** The bytes a slice denotes in a store. *)
Definition content (h : heap) (s : slice) : list byte :=
  match arr s with
  | None => []
  | Some l => take (len s) (drop (off s) (array_of h l))
  end.

(** A header is valid in a store when its whole capacity lies inside its
    backing array; a header without pointer has length and capacity 0. *)
Definition valid (h : heap) (s : slice) : bool :=
  match arr s with
  | None => Nat.eqb (len s) 0 && Nat.eqb (room s) 0
  | Some l =>
      match h !! l with
      | Some a => Nat.leb (off s + len s + room s) (length a)
      | None => false
      end
  end.

(** The full slice expression [s[lo:hi:mx]]; out-of-range indices panic. *)
Definition slice3 (s : slice) (lo hi mx : nat) : outcome slice :=
  if Nat.leb lo hi && Nat.leb hi mx && Nat.leb mx (cap s)
  then Returns (Slice (arr s) (off s + lo) (hi - lo) (mx - hi))
  else Panics "slice bounds out of range".

(** [make([]byte, n, n)] with given initial bytes: a fresh backing array. *)
Definition alloc (h : heap) (bs : list byte) : slice * heap :=
  let l := fresh (dom h) in
  (Slice (Some l) 0 (length bs) 0, <[l := bs]> h).

(** [make([]byte, 0, c)]: a fresh zeroed array of [c] bytes, length 0. *)
Definition make0 (h : heap) (c : nat) : slice * heap :=
  let l := fresh (dom h) in
  (Slice (Some l) 0 0 c, <[l := replicate c x00]> h).

(** Overwrite [a] from index [k] on with [bs] (the runtime's memmove into
    a destination that is long enough). *)
Definition blit (a : list byte) (k : nat) (bs : list byte) : list byte :=
  take k a ++ bs ++ drop (k + length bs) a.

Section Append.

(** The capacity the runtime picks when [append] has to grow: old capacity
    and needed length in, new capacity out.  The policy is the runtime's;
    the only thing the language promises is that the result is enough. *)
Variable growcap : nat -> nat -> nat.

(** [append(s, p...)]: in place when the spare room suffices, else into a
    fresh array of the grown capacity.  The source bytes are read before
    anything is written, as memmove does. *)
Definition append (h : heap) (s p : slice) : slice * heap :=
  let src := content h p in
  if Nat.leb (len p) (room s) then
    match arr s with
    | None => (s, h)
    | Some l =>
        (Slice (Some l) (off s) (len s + len p) (room s - len p),
         <[l := blit (array_of h l) (off s + len s) src]> h)
    end
  else
    let need := (len s + len p)%nat in
    let c := Nat.max need (growcap (cap s) need) in
    let l := fresh (dom h) in
    (Slice (Some l) 0 need (c - need),
     <[l := content h s ++ src ++ replicate (c - need) x00]> h).

End Append.

End Mem.

(** ** utils/reader.go *)

Module Utils.
Import Mem.

(** [err.Error()] *)
Definition Error (e : error) : string :=
  match e with
  | ErrShortWrite => "short write"
  | EOF => "EOF"
  | Errorf msg => msg
  end.

(** *** io.Reader values and NewByteReader *)

(** A value of interface type [io.Reader]: the nil interface, a pointer to
    this package's [byteReader], or a value of some other concrete type,
    given by its type name, its address, and whether its method set has
    [ReadByte] next to [Read]. *)
Inductive Reader : Type :=
| NilReader
| Obj (ty : string) (addr : loc) (hasReadByte : bool)
| ByteReaderPtr (addr : loc).

(** [type byteReader struct { io.Reader }] *)
Record byteReader : Type := { Reader_ : Reader }.

(** The [byteReader] structs allocated so far, by address. *)
Abbreviation objects := (gmap loc byteReader).

(** The type assertion [r.(ByteReader)]: the dynamic type has both [Read]
    and [ReadByte].  [*byteReader] has [Read] from the embedded field and
    [ReadByte] of its own; the nil interface asserts to nothing. *)
Definition implements_ByteReader (r : Reader) : bool :=
  match r with
  | NilReader => false
  | Obj _ _ hasReadByte => hasReadByte
  | ByteReaderPtr _ => true
  end.

Definition NewByteReader (r : Reader) (o : objects) : Reader * objects :=
  if implements_ByteReader r then (r, o)
  else
    let l := fresh (dom o) in
    (ByteReaderPtr l, <[l := {| Reader_ := r |}]> o).

(** *** CountOf *)

(** Two's-complement wrap of an [int64] sum. *)
Definition wrap64 (z : Z) : Z := (z + 2 ^ 63) mod 2 ^ 64 - 2 ^ 63.

Definition CountOf (buffs : list slice) : Z :=
  fold_left (fun n buff => wrap64 (n + Z.of_nat (len buff))) buffs 0.

(** The exact total length of the fragments, as a natural number. *)
Definition total_len (buffs : list slice) : nat := sum_list (len <$> buffs).

(** *** Sources that write themselves into a sink (io.WriterTo) *)

(** What a [WriteTo] method can do with the writer it is handed and with
    memory, as a tree of its steps: return its count and error, panic,
    call [w.Write(p)] and go on with what that returned, store a byte into
    a backing array it holds, read a slice, allocate a slice, or move its
    own read index (a field of the receiver, [r.i = i]). *)
Inductive WriterTo : Type :=
| Done (n : Z) (err : option error)
| Abort (why : string)
| CallWrite (p : slice) (k : Z -> option error -> WriterTo)
| Poke (l : loc) (i : nat) (b : byte) (k : WriterTo)
| Peek (p : slice) (k : list byte -> WriterTo)
| Make (bs : list byte) (k : slice -> WriterTo)
| SetIndex (i : nat) (k : WriterTo).

(** No step of the source is a panic of its own. *)
Fixpoint no_abort (w : WriterTo) : Prop :=
  match w with
  | Done _ _ => True
  | Abort _ => False
  | CallWrite _ k => forall m e, no_abort (k m e)
  | Poke _ _ _ k => no_abort k
  | Peek _ k => forall bs, no_abort (k bs)
  | Make _ k => forall p, no_abort (k p)
  | SetIndex _ k => no_abort k
  end.

(** [s[i:]] for [i <= len(s)] *)
Definition slice_from (s : slice) (i : nat) : slice :=
  Slice (arr s) (off s + i) (len s - i) (room s).

(** [*bytes.Reader]: the slice being read and the read index. *)
Record bytesReader : Type := { br_s : slice; br_i : nat }.

(** The [WriteTo] method of [*bytes.Reader] (standard library); it moves
    the reader's index by what [Write] returned ([r.i += int64(m)]). *)
Definition bytesReader_WriteTo (r : bytesReader) : WriterTo :=
  if Nat.leb (len (br_s r)) (br_i r) then Done 0 None
  else
    let b := slice_from (br_s r) (br_i r) in
    CallWrite b (fun m err =>
      if Z.of_nat (len b) <? m then Abort "bytes.Reader.WriteTo: invalid Write count"
      else
        SetIndex (Z.to_nat (Z.of_nat (br_i r) + m))
          (Done m (if negb (m =? Z.of_nat (len b)) && negb (bool_decide (is_Some err))
                   then Some ErrShortWrite else err))).

(** [*strings.Reader]: the string being read and the read index. *)
Record stringsReader : Type := { sr_s : string; sr_i : nat }.

(** The [WriteTo] method of [*strings.Reader] (standard library);
    [io.WriteString] converts the string to bytes for a writer without
    [WriteString]; the reader's index moves by what came back
    ([r.i += int64(m)]). *)
Definition stringsReader_WriteTo (r : stringsReader) : WriterTo :=
  let bs := list_byte_of_string (sr_s r) in
  if Nat.leb (length bs) (sr_i r) then Done 0 None
  else
    let s := drop (sr_i r) bs in
    Make s (fun p =>
    CallWrite p (fun m err =>
      if Z.of_nat (length s) <? m then Abort "strings.Reader.WriteTo: invalid WriteString count"
      else
        SetIndex (Z.to_nat (Z.of_nat (sr_i r) + m))
          (Done m (if negb (m =? Z.of_nat (length s)) && negb (bool_decide (is_Some err))
                   then Some ErrShortWrite else err)))).

(** [*bytes.Buffer], as far as [NewBuffer], [Write] and [Bytes] go: the
    contents [buf[boff:]]. *)
Record Buffer : Type := { buf : slice; boff : nat }.

Definition NewBuffer (b : slice) : Buffer := {| buf := b; boff := 0 |}.

(** [b.buf[b.off:]] *)
Definition Buffer_Bytes (b : Buffer) : outcome slice :=
  slice3 (buf b) (boff b) (len (buf b)) (cap (buf b)).

(** A message: the dynamic value behind [interface{}], by the types the
    switches of this file tell apart.  [Other] is a value of any further
    concrete type, with its name as [%T] prints it and the two methods the
    switches ask for, when the type has them. *)
Inductive message : Type :=
| Nil
| Bytes (r : slice)
| Fragments (r : list slice)
| Str (r : string)
| BytesBuffer (r : Buffer)
| BytesReader (r : bytesReader)
| StringsReader (r : stringsReader)
| Int (n : Z)
| Other (ty : string) (wt : option WriterTo) (rd : option Reader).

(** The verb [%T] *)
Definition typeName (m : message) : string :=
  match m with
  | Nil => "<nil>"
  | Bytes _ => "[]uint8"
  | Fragments _ => "[][]uint8"
  | Str _ => "string"
  | BytesBuffer _ => "*bytes.Buffer"
  | BytesReader _ => "*bytes.Reader"
  | StringsReader _ => "*strings.Reader"
  | Int _ => "int"
  | Other ty _ _ => ty
  end.

(** The message matches none of the cases of [ToBytes]' type switch. *)
Definition unrecognized (m : message) : bool :=
  match m with
  | Nil | Int _ | Other _ None None => true
  | _ => false
  end.

Section Code.

(** The runtime's growth policy for [append] (see [Mem.append]). *)
Variable growcap : nat -> nat -> nat.

(** [ioutil.ReadAll] of the standard library. *)
Variable ReadAll : Reader -> heap -> outcome (slice * option error) * heap.

(** *** ByteStealer *)

Record ByteStealer : Type := { Data : slice }.

(** [func (s *ByteStealer) Write(p []byte) (n int, err error)]: the receiver
    is threaded through, next to the store. *)
Definition Write (s : ByteStealer) (p : slice) (h : heap)
  : outcome (ByteStealer * heap * (Z * option error)) :=
  if is_nil (Data s) then
    match slice3 p 0 (len p) (len p) with
    | Returns d => Returns ({| Data := d |}, h, (Z.of_nat (len p), None))
    | Panics why => Panics why
    end
  else
    let '(d, h') := append growcap h (Data s) p in
    Returns ({| Data := d |}, h', (Z.of_nat (len p), None)).

(** [reader.WriteTo(&stealer)]: the source's steps, run against the
    stealer as its writer. *)
Fixpoint WriteTo (reader : WriterTo) (s : ByteStealer) (h : heap)
  : outcome (Z * option error) * ByteStealer * heap :=
  match reader with
  | Done n err => (Returns (n, err), s, h)
  | Abort why => (Panics why, s, h)
  | CallWrite p k =>
      match Write s p h with
      | Returns (s', h', (m, e)) => WriteTo (k m e) s' h'
      | Panics why => (Panics why, s, h)
      end
  | Poke l i b k => WriteTo k s (alter (fun a => <[i := b]> a) l h)
  | Peek p k => WriteTo (k (content h p)) s h
  | Make bs k => let '(p, h') := alloc h bs in WriteTo (k p) s h'
  | SetIndex _ k => WriteTo k s h
  end.

(** The receiver's read index after [reader.WriteTo(&stealer)], for a
    receiver whose index was [i] before: the same run, followed for the
    index instead of the store. *)
Fixpoint index_after (reader : WriterTo) (s : ByteStealer) (h : heap) (i : nat) : nat :=
  match reader with
  | Done _ _ => i
  | Abort _ => i
  | CallWrite p k =>
      match Write s p h with
      | Returns (s', h', (m, e)) => index_after (k m e) s' h' i
      | Panics _ => i
      end
  | Poke l j b k => index_after k s (alter (fun a => <[j := b]> a) l h) i
  | Peek p k => index_after (k (content h p)) s h i
  | Make bs k => let '(p, h') := alloc h bs in index_after (k p) s h' i
  | SetIndex j k => index_after k s h j
  end.

Definition StealBytes (reader : WriterTo) (h : heap)
  : outcome (slice * option error) * heap :=
  let stealer := {| Data := nil_slice |} in
  match WriteTo reader stealer h with
  | (Panics why, _, h') => (Panics why, h')
  | (Returns (n, err), stealer, h') =>
      match err with
      | Some e => (Returns (nil_slice, Some e), h')
      | None =>
          (* check data length *)
          if negb (n =? Z.of_nat (len (Data stealer)))
          then (Returns (nil_slice, Some ErrShortWrite), h')
          else (Returns (Data stealer, None), h')
      end
  end.

(** *** ToBytes and MustToBytes *)

(** The [Write] method of [*bytes.Buffer]: the contents grow by [p], in
    place while the capacity lasts. *)
Definition Buffer_Write (b : Buffer) (p : slice) (h : heap) : Buffer * heap :=
  let '(d, h') := append growcap h (buf b) p in
  ({| buf := d; boff := boff b |}, h').

(** [for _, b := range r { buffer.Write(b) }] *)
Fixpoint write_each (buffer : Buffer) (r : list slice) (h : heap) : Buffer * heap :=
  match r with
  | [] => (buffer, h)
  | b :: r' => let '(buffer', h') := Buffer_Write buffer b h in write_each buffer' r' h'
  end.

Definition ToBytes (m : message) (h : heap) : outcome (slice * option error) * heap :=
  match m with
  | Bytes r => (Returns (r, None), h)
  | Fragments r =>
      let n := CountOf r in
      if n <? 0 then (Panics "makeslice: cap out of range", h)
      else
        let '(b0, h0) := make0 h (Z.to_nat n) in
        let '(buffer, h1) := write_each (NewBuffer b0) r h0 in
        match Buffer_Bytes buffer with
        | Returns bs => (Returns (bs, None), h1)
        | Panics why => (Panics why, h1)
        end
  | Str r =>
      let '(bs, h') := alloc h (list_byte_of_string r) in
      (Returns (bs, None), h')
  | BytesBuffer r =>
      match Buffer_Bytes r with
      | Returns bs => (Returns (bs, None), h)
      | Panics why => (Panics why, h)
      end
  | BytesReader r => StealBytes (bytesReader_WriteTo r) h
  | StringsReader r => StealBytes (stringsReader_WriteTo r) h
  | Other _ (Some r) _ => StealBytes r h
  | Other _ None (Some r) => ReadAll r h
  | Nil | Int _ | Other _ None None =>
      (Returns (nil_slice, Some (Errorf ("unrecognized type: " +:+ typeName m))), h)
  end.

(** Modelled from the spec: [Assert] is not among the sources; the spec has
    the must-succeed variant turn the failure into a fatal abort, so
    [Assert(err)] panics with the error it is given. *)
Definition Assert (err : error) : outcome unit := Panics (Error err).

Definition MustToBytes (m : message) (h : heap) : outcome slice * heap :=
  match ToBytes m h with
  | (Returns (r, err), h') =>
      match err with
      | Some e =>
          match Assert e with
          | Panics why => (Panics why, h')
          | Returns _ => (Returns r, h')
          end
      | None => (Returns r, h')
      end
  | (Panics why, h') => (Panics why, h')
  end.

End Code.

(** *** ToReader and MustToReader *)

(** [bytes.NewReader(b)] and [strings.NewReader(s)]: a reader at index 0. *)
Definition bytes_NewReader (b : slice) : bytesReader := {| br_s := b; br_i := 0 |}.
Definition strings_NewReader (s : string) : stringsReader := {| sr_s := s; sr_i := 0 |}.

(** The readers [ToReader] hands out: a new [*bytes.Reader], an
    [io.MultiReader] over readers, a new [*strings.Reader], or the message
    itself when it is an [io.Reader] already. *)
#[warnings="-register-all"] Inductive stream : Type :=
| OfBytes (r : bytesReader)
| Multi (readers : list stream)
| OfString (r : stringsReader)
| Same (m : message).

Definition ToReader (m : message) : option stream * option error :=
  match m with
  | Bytes r => (Some (OfBytes (bytes_NewReader r)), None)
  | Fragments r =>
      (Some (Multi (map (fun b => OfBytes (bytes_NewReader b)) r)), None)
  | Str r => (Some (OfString (strings_NewReader r)), None)
  | BytesBuffer _ | BytesReader _ | StringsReader _ | Other _ _ (Some _) =>
      (Some (Same m), None)
  | Nil | Int _ | Other _ _ None =>
      (None, Some (Errorf ("unrecognized type: " +:+ typeName m)))
  end.

Definition MustToReader (m : message) : outcome (option stream) :=
  let '(r, err) := ToReader m in
  match err with
  | Some e =>
      match Assert e with
      | Panics why => Panics why
      | Returns _ => Returns r
      end
  | None => Returns r
  end.

(** The bytes a reader of the standard library still has to give, read to
    the end in store [h]: the unread part of a [*bytes.Reader]'s slice, of
    a [*strings.Reader]'s string, of a [*bytes.Buffer]'s contents, and for an
    [io.MultiReader] those of its readers one after the other.  Nothing is
    known of a reader of another type. *)
Fixpoint remaining (h : heap) (s : stream) : option (list byte) :=
  match s with
  | OfBytes r | Same (BytesReader r) =>
      Some (drop (br_i r) (content h (br_s r)))
  | OfString r | Same (StringsReader r) =>
      Some (drop (sr_i r) (list_byte_of_string (sr_s r)))
  | Same (BytesBuffer b) => Some (drop (boff b) (content h (buf b)))
  | Multi readers =>
      foldr (fun r acc =>
               match remaining h r, acc with
               | Some bs, Some rest => Some (bs ++ rest)
               | _, _ => None
               end) (Some []) readers
  | Same _ => None
  end.

(** The reader [ToReader] makes of [m] has, in store [h], exactly the
    bytes that [ToBytes] returns for [m] from that store. *)
Definition same_bytes
  (growcap : nat -> nat -> nat)
  (ReadAll : Reader -> heap -> outcome (slice * option error) * heap)
  (h : heap) (m : message) : Prop :=
  exists st s h',
    ToReader m = (Some st, None)
    /\ ToBytes growcap ReadAll m h = (Returns (s, None), h')
    /\ remaining h st = Some (content h' s).

(** *** byteReader.ReadByte *)

(** What one call [r.Read(p)] did: the bytes it stored at the front of [p],
    and the count and error it returned. *)
Record read_result : Type := { stored : list byte; count : Z; rerr : option error }.

(** [func (r *byteReader) ReadByte() (byte, error)], for the receiver at
    address [l]; [Read] is what the embedded reader's [Read] does when
    called now on the one-byte buffer (calling it on the nil interface is
    a nil dereference). *)
Definition ReadByte (Read : Reader -> outcome read_result) (o : objects) (l : loc)
  : outcome (byte * option error) :=
  match o !! l with
  | None => Panics "invalid memory address or nil pointer dereference"
  | Some r =>
      match Reader_ r with
      | NilReader => Panics "invalid memory address or nil pointer dereference"
      | inner =>
          match Read inner with
          | Panics why => Panics why
          | Returns res =>
              let buff := blit [x00] 0 (take 1 (stored res)) in
              Returns (default x00 (buff !! 0%nat), rerr res)
          end
      end
  end.

(** *** Sources built from a list of writes *)

(** The source that hands the slices [ps] to [w.Write] in order and then
    returns [n] and [err]. *)
Fixpoint writes (ps : list slice) (n : Z) (err : option error) : WriterTo :=
  match ps with
  | [] => Done n err
  | p :: ps' => CallWrite p (fun _ _ => writes ps' n err)
  end.

(** The source that writes [p], then stores [b] at index [i] of [p]'s
    backing array (as a source reusing its buffer does), and returns. *)
Definition write_then_store (p : slice) (i : nat) (b : byte) : WriterTo :=
  CallWrite p (fun m err =>
    match arr p with
    | Some l => Poke l (off p + i) b (Done m err)
    | None => Done m err
    end).

End Utils.

(** ** tcp options (transport options carried in a context) *)

Module Tcp.
Import Mem.

(** A [*Options]: nil or the address of an [Options] struct.  Neither
    function below looks inside the struct. *)
Abbreviation OptionsPtr := (option loc).

(** Context keys: this package's [contextKey{}], or a key of another type. *)
Inductive key : Type :=
| contextKey
| foreignKey (name : string).

Definition key_eqb (a b : key) : bool :=
  match a, b with
  | contextKey, contextKey => true
  | foreignKey x, foreignKey y => bool_decide (x = y)
  | _, _ => false
  end.

(** Context values: the nil interface, a [*Options] (nil pointer included),
    or a value of another type. *)
Inductive value : Type :=
| nilValue
| optionsValue (p : OptionsPtr)
| foreignValue (ty : string).

(** A non-nil [context.Context] of the standard library: the background, a
    value binding over a parent, or a derived context that leaves values to
    its parent (cancel, deadline). *)
Inductive Context : Type :=
| Background
| valueCtx (parent : Context) (k : key) (v : value)
| cancelCtx (parent : Context).

(** [ctx.Value(k)] *)
Fixpoint Value (c : Context) (k : key) : value :=
  match c with
  | Background => nilValue
  | valueCtx parent k' v => if key_eqb k' k then v else Value parent k
  | cancelCtx parent => Value parent k
  end.

(** [context.WithValue(parent, k, v)]; a nil parent panics. *)
Definition WithValue (parent : option Context) (k : key) (v : value) : outcome Context :=
  match parent with
  | None => Panics "cannot create context from nil parent"
  | Some c => Returns (valueCtx c k v)
  end.

(** [transport.Options], as far as this file uses it: its [Context]. *)
Record transport_Options : Type := { Context_ : option Context }.

(** [WithOptions(option)] is the function that, applied to
    [*transport.Options], rebinds its context and returns a nil error. *)
Definition WithOptions (option_ : OptionsPtr) (options : transport_Options)
  : outcome (transport_Options * option error) :=
  match WithValue (Context_ options) contextKey (optionsValue option_) with
  | Returns c => Returns ({| Context_ := Some c |}, None)
  | Panics why => Panics why
  end.

Definition FromContext (ctx : option Context) (def : OptionsPtr) : outcome OptionsPtr :=
  match ctx with
  | None => Panics "invalid memory address or nil pointer dereference"
  | Some c =>
      match Value c contextKey with
      | optionsValue v => Returns v
      | _ => Returns def
      end
  end.

(** No binding of [contextKey] lies between [c] and the background. *)
Fixpoint unbound (c : Context) : bool :=
  match c with
  | Background => true
  | valueCtx parent k _ => negb (key_eqb k contextKey) && unbound parent
  | cancelCtx parent => unbound parent
  end.

(** Contexts derived from [c] later on, innermost last: a binding of a key
    [(Some k, v)] or a cancel context [None]. *)
Fixpoint derive (layers : list (option (key * value))) (c : Context) : Context :=
  match layers with
  | [] => c
  | Some (k, v) :: rest => derive rest (valueCtx c k v)
  | None :: rest => derive rest (cancelCtx c)
  end.

(** A layer that does not bind [contextKey]. *)
Definition foreign (layer : option (key * value)) : bool :=
  match layer with
  | Some (k, _) => negb (key_eqb k contextKey)
  | None => true
  end.

End Tcp.

(** ** The size-classed pool *)

Module Pool.

(** Modelled from the spec: the pool's own file (New, Get, Put) is not
    among the sources, only its test is.  A buffer is its bytes; its
    capacity is their number. *)
Abbreviation Buffer := (list byte).

(** Modelled from the spec: the capacity of a pooled buffer. *)
Definition capacity (b : Buffer) : Z := Z.of_nat (length b).

(** Modelled from the spec: the pool of section 3: the ceiling [max] and,
    per size class, the collection of released buffers of that class. *)
Record Pool : Type := { max : Z; free : gmap Z (list Buffer) }.

(** Modelled from the spec: "size class: one of a pool's fixed power-of-two
    buffer capacities". *)
Definition power_of_two (n : Z) : Prop := exists k : Z, 0 <= k /\ n = 2 ^ k.

(** Modelled from the spec: the decidable form of [power_of_two], which
    [Put] needs for telling a class from a foreign size. *)
Definition is_power_of_two (n : Z) : bool := (0 <? n) && (n =? 2 ^ Z.log2 n).

(** Modelled from the spec: the search behind "the smallest size class >=
    requestedSize": walk up the classes 1, 2, 4, ... from [c] until one
    is large enough; [fuel] bounds the number of doublings. *)
Fixpoint ceil_class (fuel : nat) (c size : Z) : Z :=
  match fuel with
  | O => c
  | S fuel' => if size <=? c then c else ceil_class fuel' (2 * c) size
  end.

(** Modelled from the spec: "compute the smallest size class >=
    requestedSize".  [size] doublings from 1 always suffice. *)
Definition CeilToPowerOfTwo (size : Z) : Z := ceil_class (Z.to_nat size) 1 size.

(** Modelled from the spec: "If that class exceeds max, clamp to max". *)
Definition size_class (max size : Z) : Z :=
  let c := CeilToPowerOfTwo size in
  if max <? c then max else c.

(** Modelled from the spec: [New(max)] "constructs a pool whose largest
    class is the greatest power of two <= max (or max itself if max is
    already a power of two)"; "max must be a positive integer; behavior
    for non-positive max is undefined and should be rejected".  The
    pool's [max] is that largest class.  Classes are populated lazily, so
    a new pool holds no buffer. *)
Definition New (max : Z) : option Pool :=
  if 0 <? max then Some {| max := 2 ^ Z.log2 max; free := ∅ |} else None.

(** Modelled from the spec: [Get(requestedSize)] returns a buffer and the
    actual capacity granted: a released buffer of the chosen class when
    there is one (removed from the collection), else a new buffer of
    exactly that capacity. *)
Definition Get (p : Pool) (size : Z) : Buffer * Z * Pool :=
  let n := size_class (max p) size in
  match free p !! n with
  | Some (b :: rest) => (b, n, {| max := max p; free := <[n := rest]> (free p) |})
  | _ => (replicate (Z.to_nat n) x00, n, p)
  end.

(** Modelled from the spec: the capacity [Get] reports. *)
Definition granted (p : Pool) (size : Z) : Z := (Get p size).1.2.

(** Modelled from the spec: [Put(buffer)] returns a buffer to its class's
    collection; a buffer whose capacity is not a class of the pool is
    ignored. *)
Definition Put (p : Pool) (b : Buffer) : Pool :=
  let c := capacity b in
  if is_power_of_two c && (c <=? max p)
  then {| max := max p; free := <[c := b :: default [] (free p !! c)]> (free p) |}
  else p.

(** Modelled from the spec: [c] is the smallest power of two that is at
    least [size]. *)
Definition smallest_class_ge (size c : Z) : Prop :=
  power_of_two c /\ size <= c /\
  forall c', power_of_two c' -> size <= c' -> c <= c'.

End Pool.

(** ** Concrete inputs of the scenarios *)

Module Scenario.
Import Mem Utils.

(** A growth policy: double, as the runtime does for small slices. *)
Definition double (old need : nat) : nat := (2 * old)%nat.

(** A reader that is already at its end. *)
Definition ReadAll_empty (r : Reader) (h : heap)
  : outcome (slice * option error) * heap := (Returns (nil_slice, None), h).

(** A store holding the arrays [{1,2}] and [{3}]. *)
Definition h12_3 : heap := <[1%positive := [x01; x02]]> (<[2%positive := [x03]]> ∅).
Definition s12 : slice := Slice (Some 1%positive) 0 2 0.
Definition s3 : slice := Slice (Some 2%positive) 0 1 0.

(** A store holding the array [{1,2,3}]. *)
Definition h123 : heap := <[1%positive := [x01; x02; x03]]> ∅.
Definition s123 : slice := Slice (Some 1%positive) 0 3 0.

(** The source that writes [{1,2}], then [{3}], and reports [n] and [err]. *)
Definition writes_12_3 (n : Z) (err : option error) : WriterTo :=
  CallWrite s12 (fun _ _ => CallWrite s3 (fun _ _ => Done n err)).

(** A reader of a concrete type with only [Read], and one with [ReadByte]
    as well. *)
Definition plain_reader : Reader := Obj "*os.File" 1%positive false.
Definition bufio_reader : Reader := Obj "*bufio.Reader" 2%positive true.

(** Pools with no released buffer, by ceiling. *)
Definition pool (max : Z) : Pool.Pool := {| Pool.max := max; Pool.free := ∅ |}.

End Scenario.

(** * Facts about slices and [append] *)

Module MemFacts.
Import Mem.

Lemma valid_array h s l :
  valid h s = true -> arr s = Some l ->
  exists a, h !! l = Some a /\ (off s + len s + room s <= length a)%nat.
Proof.
  unfold valid. intros Hv Hl. rewrite Hl in Hv.
  destruct (h !! l) as [a|] eqn:Ha; [|discriminate].
  exists a. split; [reflexivity|]. by apply Nat.leb_le.
Qed.

Lemma valid_nil h s :
  valid h s = true -> arr s = None -> len s = 0%nat /\ room s = 0%nat.
Proof.
  unfold valid. intros Hv Hl. rewrite Hl in Hv.
  apply andb_true_iff in Hv as [H1 H2].
  split; by apply Nat.eqb_eq.
Qed.

(** A valid slice denotes exactly [len] bytes. *)
Lemma content_length h s : valid h s = true -> length (content h s) = len s.
Proof.
  intros Hv. unfold content. destruct (arr s) as [l|] eqn:Hl.
  - destruct (valid_array _ _ _ Hv Hl) as (a & Ha & Hle).
    unfold array_of. rewrite Ha. simpl.
    rewrite length_take, length_drop. lia.
  - destruct (valid_nil _ _ Hv Hl) as [-> _]. reflexivity.
Qed.

(** Reading [n] bytes at [k] after writing [bs] (of that length) there. *)
Lemma blit_read a k bs :
  (k + length bs <= length a)%nat ->
  take (length bs) (drop k (blit a k bs)) = bs.
Proof.
  intros Hle. unfold blit.
  rewrite drop_app_length' by (rewrite length_take; lia).
  by rewrite take_app_length.
Qed.

(** Writing at [k] leaves everything below [k] as it was. *)
Lemma blit_below a k bs :
  (k <= length a)%nat -> take k (blit a k bs) = take k a.
Proof.
  intros Hle. unfold blit.
  rewrite take_app_length' by (rewrite length_take; lia).
  reflexivity.
Qed.

Lemma blit_length a k bs :
  (k + length bs <= length a)%nat -> length (blit a k bs) = length a.
Proof.
  intros Hle. unfold blit.
  rewrite !length_app, length_take, length_drop. lia.
Qed.

(** Slices over other arrays do not see an update of array [l]. *)
Lemma content_insert_ne (h : heap) l x s :
  arr s <> Some l -> content (<[l := x]> h) s = content h s.
Proof.
  intros Hne. unfold content, array_of. destruct (arr s) as [l'|]; [|done].
  rewrite lookup_insert_ne; [done | congruence].
Qed.

Lemma valid_insert_ne (h : heap) l x s :
  arr s <> Some l -> valid (<[l := x]> h) s = valid h s.
Proof.
  intros Hne. unfold valid. destruct (arr s) as [l'|]; [|done].
  rewrite lookup_insert_ne; [done | congruence].
Qed.

(** A valid slice never points at the array allocated next. *)
Lemma valid_not_fresh (h : heap) s :
  valid h s = true -> arr s <> Some (fresh (dom h)).
Proof.
  intros Hv Hl. destruct (valid_array _ _ _ Hv Hl) as (a & Ha & _).
  apply (is_fresh (dom h)). apply elem_of_dom. by exists a.
Qed.

Section AppendFacts.
Variable growcap : nat -> nat -> nat.

(** [append] within the spare room writes behind the length, in the same
    backing array. *)
Lemma append_in_place (h : heap) s p l a :
  arr s = Some l -> h !! l = Some a -> (len p <= room s)%nat ->
  append growcap h s p =
    (Slice (Some l) (off s) (len s + len p) (room s - len p),
     <[l := blit a (off s + len s) (content h p)]> h).
Proof.
  intros Hl Ha Hle. unfold append.
  apply Nat.leb_le in Hle. rewrite Hle, Hl.
  unfold array_of. rewrite Ha. reflexivity.
Qed.

(** The bytes of [append(s, p...)] are those of [s] followed by those of
    [p], whether it grew in place or moved. *)
Lemma append_content (h : heap) s p :
  valid h s = true -> valid h p = true ->
  content (append growcap h s p).2 (append growcap h s p).1
  = content h s ++ content h p.
Proof.
  intros Hs Hp.
  pose proof (content_length _ _ Hs) as Ls.
  pose proof (content_length _ _ Hp) as Lp.
  destruct (Nat.leb (len p) (room s)) eqn:Hfit.
  - apply Nat.leb_le in Hfit.
    destruct (arr s) as [l|] eqn:Hl.
    + destruct (valid_array _ _ _ Hs Hl) as (a & Ha & Hle).
      rewrite (append_in_place h s p l a Hl Ha Hfit). simpl.
      unfold content at 1. simpl. unfold array_of at 1.
      rewrite lookup_insert_eq. simpl.
      assert (content h s = take (len s) (drop (off s) a)) as Hcs.
      { unfold content, array_of. by rewrite Hl, Ha. }
      rewrite Hcs in *. unfold blit.
      rewrite drop_app_le by (rewrite length_take; lia).
      rewrite <- take_drop_commute.
      rewrite take_app_add' by (symmetry; exact Ls).
      rewrite take_app_length' by (symmetry; exact Lp).
      reflexivity.
    + destruct (valid_nil _ _ Hs Hl) as [Hlen Hroom].
      unfold append. replace (Nat.leb (len p) (room s)) with true
        by (symmetry; apply Nat.leb_le; lia).
      rewrite Hl. simpl.
      assert (content h p = []) as ->.
      { apply length_zero_iff_nil. lia. }
      by rewrite app_nil_r.
  - unfold append. rewrite Hfit. simpl.
    unfold content at 1. simpl. unfold array_of at 1.
    rewrite lookup_insert_eq. simpl. rewrite drop_0.
    rewrite take_app_add' by (symmetry; exact Ls).
    rewrite take_app_length' by (symmetry; exact Lp).
    reflexivity.
Qed.

End AppendFacts.

End MemFacts.

(** * Facts about CountOf and the concatenation loop *)

Module UtilsFacts.
Import Mem Utils MemFacts.

Lemma wrap64_small z : - 2 ^ 63 <= z < 2 ^ 63 -> wrap64 z = z.
Proof.
  intros Hz. unfold wrap64. rewrite Z.mod_small; lia.
Qed.

Lemma total_len_cons b buffs : total_len (b :: buffs) = (len b + total_len buffs)%nat.
Proof. reflexivity. Qed.

(** The running sum never wraps while the exact total fits an [int64]. *)
Lemma CountOf_from buffs : forall n,
  0 <= n -> n + Z.of_nat (total_len buffs) < 2 ^ 63 ->
  fold_left (fun n buff => wrap64 (n + Z.of_nat (len buff))) buffs n
  = n + Z.of_nat (total_len buffs).
Proof.
  induction buffs as [|b buffs IH]; intros n Hn Hfit; simpl.
  - unfold total_len. simpl. lia.
  - rewrite total_len_cons in Hfit |- *.
    rewrite wrap64_small by lia.
    rewrite IH by lia. lia.
Qed.

Lemma CountOf_exact buffs :
  Z.of_nat (total_len buffs) < 2 ^ 63 -> CountOf buffs = Z.of_nat (total_len buffs).
Proof.
  intros Hfit. unfold CountOf. rewrite CountOf_from; lia.
Qed.

Section LoopFacts.
Variable growcap : nat -> nat -> nat.

(** The loop of [ToBytes] over a buffer whose spare room holds all the
    fragments: every write lands in place in the buffer's own array [l],
    no other array changes, and the buffer ends up holding its old bytes
    followed by the fragments' bytes in order. *)
Lemma write_each_in_place r : forall l n rm a (h : heap),
  h !! l = Some a -> (n + rm <= length a)%nat -> (total_len r <= rm)%nat ->
  Forall (fun f => valid h f = true /\ arr f <> Some l) r ->
  exists a',
    write_each growcap {| buf := Slice (Some l) 0 n rm; boff := 0 |} r h
    = ({| buf := Slice (Some l) 0 (n + total_len r) (rm - total_len r); boff := 0 |},
       <[l := a']> h)
    /\ length a' = length a
    /\ take (n + total_len r) a' = take n a ++ concat (content h <$> r).
Proof.
  induction r as [|f r IH]; intros l n rm a h Ha Hle Htot Hall.
  - exists a. simpl. unfold total_len. simpl.
    rewrite Nat.add_0_r, Nat.sub_0_r, app_nil_r, insert_id by done. done.
  - rewrite total_len_cons in Htot |- *.
    apply Forall_cons in Hall as [[Hvf Hnf] Hall].
    pose proof (content_length _ _ Hvf) as Lf.
    simpl. unfold Buffer_Write. simpl.
    rewrite (append_in_place growcap h _ f l a) by (simpl; (done || lia)).
    simpl.
    set (a1 := blit a n (content h f)).
    set (h1 := <[l := a1]> h).
    assert (length a1 = length a) as La1.
    { unfold a1. apply blit_length. lia. }
    destruct (IH l (n + len f)%nat (rm - len f)%nat a1 h1) as (a' & Hrun & Hlen & Htake).
    + unfold h1. apply lookup_insert_eq.
    + lia.
    + lia.
    + eapply Forall_impl; [exact Hall|]. intros f' [Hv' Hn']. split; [|done].
      unfold h1. by rewrite valid_insert_ne.
    + exists a'. rewrite Hrun. unfold h1. rewrite insert_insert_eq.
      replace (n + len f + total_len r)%nat with (n + (len f + total_len r))%nat in * by lia.
      replace (rm - len f - total_len r)%nat with (rm - (len f + total_len r))%nat by lia.
      split; [done|]. split; [lia|].
      rewrite Htake. unfold a1 at 1, blit.
      rewrite take_app_add' by (rewrite length_take; lia).
      rewrite take_app_length' by (symmetry; exact Lf).
      rewrite <- app_assoc. f_equal. simpl. f_equal.
      f_equal. apply Forall_fmap_ext_1. eapply Forall_impl; [exact Hall|].
      intros f' [_ Hn']. unfold h1. by apply content_insert_ne.
Qed.

(** [Bytes()] of a buffer nothing was read from is the buffer's slice. *)
Lemma Buffer_Bytes_unread a n rm :
  Buffer_Bytes {| buf := Slice a 0 n rm; boff := 0 |} = Returns (Slice a 0 n rm).
Proof.
  unfold Buffer_Bytes, slice3, cap. simpl.
  replace (Nat.leb n (n + rm)) with true by (symmetry; apply Nat.leb_le; lia).
  rewrite Nat.leb_refl. simpl.
  by rewrite Nat.sub_0_r, Nat.add_comm, Nat.add_sub.
Qed.

End LoopFacts.

Section StealerFacts.
Variable growcap : nat -> nat -> nat.

(** What [Write] returns, in full: the slice expression of the first
    branch is always in range, so neither branch panics. *)
Lemma Write_returns s p (h : heap) :
  Write growcap s p h =
  Returns (if is_nil (Data s)
           then ({| Data := Slice (arr p) (off p) (len p) 0 |}, h)
           else ({| Data := (append growcap h (Data s) p).1 |},
                 (append growcap h (Data s) p).2),
           (Z.of_nat (len p), None)).
Proof.
  unfold Write. destruct (is_nil (Data s)).
  - unfold slice3, cap. simpl.
    rewrite Nat.leb_refl. simpl.
    replace (Nat.leb (len p) (len p + room p)) with true
      by (symmetry; apply Nat.leb_le; lia).
    by rewrite Nat.add_0_r, Nat.sub_0_r, Nat.sub_diag.
  - by destruct (append growcap h (Data s) p).
Qed.

(** A source without a panic of its own runs to its [return]: the sink
    adds no panic. *)
Lemma WriteTo_returns reader : forall s (h : heap),
  no_abort reader ->
  exists n err s' h', WriteTo growcap reader s h = (Returns (n, err), s', h').
Proof.
  induction reader as [n err | why | p k IH | l i b k IH | p k IH | bs k IH | i k IH];
    intros s h Hok; simpl in *.
  - by exists n, err, s, h.
  - done.
  - rewrite Write_returns.
    destruct (is_nil (Data s)); apply IH, Hok.
  - apply IH, Hok.
  - apply IH, Hok.
  - apply IH, Hok.
  - apply IH, Hok.
Qed.

(** [StealBytes] in terms of what the source's [WriteTo] came back with. *)
Lemma StealBytes_after reader (h : heap) n err st h' :
  WriteTo growcap reader {| Data := nil_slice |} h = (Returns (n, err), st, h') ->
  StealBytes growcap reader h =
  match err with
  | Some e => (Returns (nil_slice, Some e), h')
  | None =>
      if bool_decide (n = Z.of_nat (len (Data st)))
      then (Returns (Data st, None), h')
      else (Returns (nil_slice, Some ErrShortWrite), h')
  end.
Proof.
  intros Hrun. unfold StealBytes. rewrite Hrun.
  destruct err as [e|]; [reflexivity|].
  case_bool_decide as Hn.
  - apply Z.eqb_eq in Hn. by rewrite Hn.
  - apply Z.eqb_neq in Hn. by rewrite Hn.
Qed.

(** The run of the source that writes {1,2} and then {3}. *)
Lemma WriteTo_writes_12_3 n err :
  WriteTo growcap (Scenario.writes_12_3 n err) {| Data := nil_slice |} Scenario.h12_3
  = (Returns (n, err),
     {| Data := (append growcap Scenario.h12_3 Scenario.s12 Scenario.s3).1 |},
     (append growcap Scenario.h12_3 Scenario.s12 Scenario.s3).2).
Proof.
  unfold Scenario.writes_12_3. cbn [WriteTo].
  rewrite Write_returns. cbn [Data nil_slice is_nil arr WriteTo].
  rewrite Write_returns. reflexivity.
Qed.

End StealerFacts.

End UtilsFacts.

(** * The byte extractor's contract *)

Module UtilsSpec.
Import Mem Utils MemFacts UtilsFacts Scenario.

(** C9. The capturing sink's [Write] never fails: for every receiver, every
    slice [p] and every store it returns [len(p)] and no error (and does
    not panic).  Hence every error [StealBytes] returns is either the one
    the source's own [WriteTo] returned, or the short-write error of the
    final length check, raised for a count that differs from the captured
    length; and a source that does not panic itself always gets an answer
    from [StealBytes]. *)
Theorem Write_never_fails (growcap : nat -> nat -> nat) :
  (forall s p (h : heap),
     exists s' h', Write growcap s p h = Returns (s', h', (Z.of_nat (len p), None)))
  /\ (forall reader (h : heap) r e h',
        StealBytes growcap reader h = (Returns (r, Some e), h') ->
        exists n err st,
          WriteTo growcap reader {| Data := nil_slice |} h = (Returns (n, err), st, h')
          /\ (err = Some e
              \/ (err = None /\ n <> Z.of_nat (len (Data st)) /\ e = ErrShortWrite)))
  /\ (forall reader (h : heap),
        no_abort reader ->
        exists r h', StealBytes growcap reader h = (Returns r, h')).
Proof.
  split; [|split].
  - intros s p h. rewrite Write_returns.
    destruct (is_nil (Data s)); eauto.
  - intros reader h r e h' Hsteal.
    destruct (WriteTo growcap reader {| Data := nil_slice |} h)
      as [[[[n err]|why] st] h1] eqn:Hrun.
    + rewrite (StealBytes_after _ _ _ _ _ _ _ Hrun) in Hsteal.
      destruct err as [e1|].
      * simplify_eq. exists n, (Some e), st. eauto.
      * case_bool_decide as Hn; [discriminate|].
        simplify_eq. exists n, None, st. eauto.
    + unfold StealBytes in Hsteal. rewrite Hrun in Hsteal. discriminate.
  - intros reader h Hok.
    destruct (WriteTo_returns growcap reader {| Data := nil_slice |} h Hok)
      as (n & err & st & h' & Hrun).
    rewrite (StealBytes_after _ _ _ _ _ _ _ Hrun).
    destruct err; [eauto|]. case_bool_decide; eauto.
Qed.

Lemma Write_never_fails_witness :
  StealBytes double (writes_12_3 4 None) h12_3
    = (Returns (nil_slice, Some ErrShortWrite), StealBytes double (writes_12_3 4 None) h12_3).2
  /\ exists n err st,
       WriteTo double (writes_12_3 4 None) {| Data := nil_slice |} h12_3
         = (Returns (n, err), st, (StealBytes double (writes_12_3 4 None) h12_3).2)
       /\ (err = Some ErrShortWrite
           \/ (err = None /\ n <> Z.of_nat (len (Data st)) /\ ErrShortWrite = ErrShortWrite)).
Proof.
  split; [vm_compute; reflexivity|].
  apply (proj1 (proj2 (Write_never_fails double)) (writes_12_3 4 None) h12_3 nil_slice).
  vm_compute; reflexivity.
Defined.

(** C4. On its first [Write] (no data captured yet) the sink keeps the very
    byte range it is handed: same backing array and offset, length
    [len(p)], capacity trimmed to that length, and the store untouched (no
    copy, no allocation).  On every later [Write] the captured bytes
    become the previously captured bytes followed by those of [p].  So
    writing {1,2} and then {3} leaves {1,2,3} captured. *)
Theorem Write_captures (growcap : nat -> nat -> nat) :
  (forall s p (h : heap),
     is_nil (Data s) = true ->
     Write growcap s p h =
       Returns ({| Data := Slice (arr p) (off p) (len p) 0 |}, h, (Z.of_nat (len p), None))
     /\ cap (Slice (arr p) (off p) (len p) 0) = len p)
  /\ (forall s p (h : heap),
        is_nil (Data s) = false ->
        valid h (Data s) = true -> valid h p = true ->
        exists s' h',
          Write growcap s p h = Returns (s', h', (Z.of_nat (len p), None))
          /\ content h' (Data s') = content h (Data s) ++ content h p)
  /\ (exists st1 st2 h2,
        Write growcap {| Data := nil_slice |} s12 h12_3 = Returns (st1, h12_3, (2, None))
        /\ Write growcap st1 s3 h12_3 = Returns (st2, h2, (1, None))
        /\ content h2 (Data st2) = [x01; x02; x03]).
Proof.
  split; [|split].
  - intros s p h Hnil. rewrite Write_returns, Hnil.
    split; [reflexivity|]. unfold cap. simpl. lia.
  - intros s p h Hnil Hs Hp. rewrite Write_returns, Hnil.
    eexists _, _. split; [reflexivity|]. simpl.
    by apply append_content.
  - exists {| Data := s12 |}, {| Data := (append growcap h12_3 s12 s3).1 |},
      (append growcap h12_3 s12 s3).2.
    split; [|split].
    + rewrite Write_returns. reflexivity.
    + rewrite Write_returns. reflexivity.
    + cbn [Data]. rewrite append_content by reflexivity. reflexivity.
Qed.

Lemma Write_captures_witness :
  exists s' h',
    Write double {| Data := s12 |} s3 h12_3 = Returns (s', h', (1, None))
    /\ content h' (Data s') = [x01; x02] ++ [x03].
Proof.
  apply (proj1 (proj2 (Write_captures double)) {| Data := s12 |} s3 h12_3);
    reflexivity.
Defined.

(** C3 as stated fails: a source writes {1,2} and {3}, reports the count 3,
    which is the captured length, and returns an error of its own next to
    it; [StealBytes] then fails with that error instead of returning the
    captured bytes.  And when such a source reports 4, the failure is the
    source's error, not the short-write error. *)
Lemma StealBytes_count_matches_yet_fails :
  (exists st h',
     WriteTo double (writes_12_3 3 (Some EOF)) {| Data := nil_slice |} h12_3
       = (Returns (3, Some EOF), st, h')
     /\ 3 = Z.of_nat (len (Data st))
     /\ StealBytes double (writes_12_3 3 (Some EOF)) h12_3
          <> (Returns (Data st, None), h'))
  /\ (exists st h',
        WriteTo double (writes_12_3 4 (Some EOF)) {| Data := nil_slice |} h12_3
          = (Returns (4, Some EOF), st, h')
        /\ 4 <> Z.of_nat (len (Data st))
        /\ StealBytes double (writes_12_3 4 (Some EOF)) h12_3
             <> (Returns (nil_slice, Some ErrShortWrite), h')).
Proof.
  split; eexists _, _; (split; [vm_compute; reflexivity|]); split;
    vm_compute; congruence.
Qed.

(** C3, amended.  Let the source's [WriteTo] come back with count [n] and
    error [err].  If [err] is nil and [n] is the captured length,
    [StealBytes] succeeds with exactly the captured slice; if [err] is nil
    and [n] differs from the captured length, it fails with the short-write
    error; if [err] is not nil, it fails with [err], whatever the count.
    A source that writes {1,2} and {3} and reports 3 yields {1,2,3}; one
    that reports 4 yields the short-write error. *)
Theorem StealBytes_checks_count (growcap : nat -> nat -> nat) :
  (forall reader (h : heap) n err st h',
     WriteTo growcap reader {| Data := nil_slice |} h = (Returns (n, err), st, h') ->
     (err = None -> n = Z.of_nat (len (Data st)) ->
        StealBytes growcap reader h = (Returns (Data st, None), h'))
     /\ (err = None -> n <> Z.of_nat (len (Data st)) ->
           StealBytes growcap reader h = (Returns (nil_slice, Some ErrShortWrite), h'))
     /\ (forall e, err = Some e ->
           StealBytes growcap reader h = (Returns (nil_slice, Some e), h')))
  /\ (exists s hs,
        StealBytes growcap (writes_12_3 3 None) h12_3 = (Returns (s, None), hs)
        /\ content hs s = [x01; x02; x03])
  /\ (exists hs,
        StealBytes growcap (writes_12_3 4 None) h12_3
          = (Returns (nil_slice, Some ErrShortWrite), hs)).
Proof.
  split; [|split].
  - intros reader h n err st h' Hrun.
    rewrite (StealBytes_after _ _ _ _ _ _ _ Hrun).
    split; [|split].
    + intros -> Hn. by rewrite bool_decide_eq_true_2.
    + intros -> Hn. by rewrite bool_decide_eq_false_2.
    + by intros e ->.
  - rewrite (StealBytes_after _ _ _ _ _ _ _ (WriteTo_writes_12_3 growcap 3 None)).
    eexists _, _. split; [reflexivity|].
    cbn [Data]. rewrite append_content by reflexivity. reflexivity.
  - rewrite (StealBytes_after _ _ _ _ _ _ _ (WriteTo_writes_12_3 growcap 4 None)).
    eexists. reflexivity.
Qed.

Lemma StealBytes_checks_count_witness :
  StealBytes double (writes_12_3 3 None) h12_3
  = (Returns (Slice (Some 3%positive) 0 3 1, None),
     <[3%positive := [x01; x02; x03; x00]]> h12_3).
Proof.
  assert (WriteTo double (writes_12_3 3 None) {| Data := nil_slice |} h12_3
          = (Returns (3, None), {| Data := Slice (Some 3%positive) 0 3 1 |},
             <[3%positive := [x01; x02; x03; x00]]> h12_3)) as Hrun
    by (vm_compute; reflexivity).
  exact (proj1 (proj1 (StealBytes_checks_count double) _ _ _ _ _ _ Hrun)
           eq_refl eq_refl).
Defined.

(** C5. For every list of fragments that are valid slices of the store and
    whose total length fits an [int64] (as the length of the result has
    to), [ToBytes] returns, with no error, a slice over one array that did
    not exist before the call; its length and its capacity are the sum of
    the fragments' lengths, which is what [CountOf] computed; its bytes
    are the fragments' bytes in order; and the call allocates that one
    array and writes to no other.  For the fragments {1,2} and {3} the
    result is {1,2,3}, of length 3. *)
Theorem ToBytes_fragments
  (growcap : nat -> nat -> nat)
  (ReadAll : Reader -> heap -> outcome (slice * option error) * heap) :
  (forall (r : list slice) (h : heap),
     Forall (fun f => valid h f = true) r ->
     Z.of_nat (total_len r) < 2 ^ 63 ->
     exists s h',
       ToBytes growcap ReadAll (Fragments r) h = (Returns (s, None), h')
       /\ arr s = Some (fresh (dom h)) /\ (fresh (dom h) ∉ dom h)
       /\ len s = total_len r /\ cap s = total_len r
       /\ Z.of_nat (len s) = CountOf r
       /\ content h' s = concat (content h <$> r)
       /\ dom h' = {[fresh (dom h)]} ∪ dom h
       /\ (forall l, l ∈ dom h -> h' !! l = h !! l))
  /\ (exists s h',
        ToBytes growcap ReadAll (Fragments [s12; s3]) h12_3 = (Returns (s, None), h')
        /\ content h' s = [x01; x02; x03] /\ len s = 3%nat).
Proof.
  match goal with |- ?A /\ _ => assert A as General end.
  { intros r h Hvalid Hfit.
    pose proof (is_fresh (dom h)) as Hfresh.
    set (l := fresh (dom h)) in *.
    set (zeros := replicate (total_len r) x00).
    set (h0 := <[l := zeros]> h).
    destruct (write_each_in_place growcap r l 0 (total_len r) zeros h0)
      as (a' & Hrun & Hlen & Htake).
    { unfold h0. apply lookup_insert_eq. }
    { unfold zeros. rewrite length_replicate. lia. }
    { lia. }
    { eapply Forall_impl; [exact Hvalid|]. intros f Hf. simpl in Hf.
      pose proof (valid_not_fresh _ _ Hf) as Hne. fold l in Hne.
      split; [|exact Hne]. unfold h0. by rewrite valid_insert_ne. }
    exists (Slice (Some l) 0 (0 + total_len r) (total_len r - total_len r)),
      (<[l := a']> h0).
    split.
    { unfold ToBytes. rewrite CountOf_exact by exact Hfit.
      replace (Z.of_nat (total_len r) <? 0) with false
        by (symmetry; apply Z.ltb_ge; lia).
      rewrite Nat2Z.id. unfold make0, NewBuffer. fold l. fold zeros. fold h0.
      rewrite Hrun. by rewrite Buffer_Bytes_unread. }
    split; [reflexivity|]. split; [exact Hfresh|].
    split; [reflexivity|]. split; [unfold cap; simpl; lia|].
    split; [simpl; symmetry; by apply CountOf_exact|].
    split.
    { unfold content at 1. simpl. unfold array_of.
      rewrite lookup_insert_eq. simpl. rewrite drop_0.
      change (total_len r) with (0 + total_len r)%nat at 1.
      rewrite Htake. simpl. f_equal.
      apply Forall_fmap_ext_1. eapply Forall_impl; [exact Hvalid|].
      intros f Hf. simpl in Hf. unfold h0. apply content_insert_ne.
      pose proof (valid_not_fresh _ _ Hf) as Hne. exact Hne. }
    split.
    { unfold h0. rewrite insert_insert_eq. apply dom_insert_L. }
    intros l' Hl'. unfold h0. rewrite insert_insert_eq.
    apply lookup_insert_ne. intros ->. by apply Hfresh. }
  split; [exact General|].
  destruct (General [s12; s3] h12_3) as (s & h' & Hto & _ & _ & Hlen & _ & _ & Hc & _).
  { repeat constructor. }
  { vm_compute. reflexivity. }
  exists s, h'. split; [exact Hto|]. split; [exact Hc | exact Hlen].
Qed.

Lemma ToBytes_fragments_witness :
  exists s h',
    ToBytes double ReadAll_empty (Fragments [s12; s3]) h12_3 = (Returns (s, None), h')
    /\ arr s = Some (fresh (dom h12_3)) /\ (fresh (dom h12_3) ∉ dom h12_3)
    /\ len s = total_len [s12; s3] /\ cap s = total_len [s12; s3]
    /\ Z.of_nat (len s) = CountOf [s12; s3]
    /\ content h' s = concat (content h12_3 <$> [s12; s3])
    /\ dom h' = {[fresh (dom h12_3)]} ∪ dom h12_3
    /\ (forall l, l ∈ dom h12_3 -> h' !! l = h12_3 !! l).
Proof.
  apply (proj1 (ToBytes_fragments double ReadAll_empty) [s12; s3] h12_3).
  - repeat constructor.
  - vm_compute. reflexivity.
Defined.

(** C6. For a message that is a single byte slice, [ToBytes] returns that
    very slice (same backing array, offset, length and capacity) with no
    error, and the store is left exactly as it was: nothing is copied and
    nothing is allocated.  For the slice {1,2,3} the result denotes
    {1,2,3}. *)
Theorem ToBytes_bytes_is_identity
  (growcap : nat -> nat -> nat)
  (ReadAll : Reader -> heap -> outcome (slice * option error) * heap) :
  (forall b (h : heap),
     ToBytes growcap ReadAll (Bytes b) h = (Returns (b, None), h))
  /\ (exists s,
        ToBytes growcap ReadAll (Bytes s123) h123 = (Returns (s, None), h123)
        /\ content h123 s = [x01; x02; x03]).
Proof.
  split.
  - reflexivity.
  - exists s123. split; reflexivity.
Qed.

(** C7. For a message that matches no case of the type switch, [ToBytes]
    returns the nil slice and the error "unrecognized type: T", where T is
    the name of the message's concrete type, and leaves the store alone;
    [MustToBytes] panics on it with that error's text.  So [ToBytes(42)]
    fails naming [int], and [MustToBytes(42)] panics. *)
Theorem ToBytes_unrecognized
  (growcap : nat -> nat -> nat)
  (ReadAll : Reader -> heap -> outcome (slice * option error) * heap) :
  (forall (m : message) (h : heap),
     unrecognized m = true ->
     ToBytes growcap ReadAll m h
       = (Returns (nil_slice, Some (Errorf ("unrecognized type: " +:+ typeName m))), h)
     /\ MustToBytes growcap ReadAll m h
         = (Panics ("unrecognized type: " +:+ typeName m), h))
  /\ (forall h : heap,
        ToBytes growcap ReadAll (Int 42) h
          = (Returns (nil_slice, Some (Errorf "unrecognized type: int")), h)
        /\ MustToBytes growcap ReadAll (Int 42) h
            = (Panics "unrecognized type: int", h)).
Proof.
  split.
  - intros m h Hm.
    assert (ToBytes growcap ReadAll m h
      = (Returns (nil_slice, Some (Errorf ("unrecognized type: " +:+ typeName m))), h))
      as Hto.
    { destruct m as [| | | | | | | n | ty [wt|] [rd|]]; try discriminate; reflexivity. }
    split; [exact Hto|].
    unfold MustToBytes. rewrite Hto. reflexivity.
  - intros h. split; reflexivity.
Qed.

Lemma ToBytes_unrecognized_witness :
  ToBytes double ReadAll_empty (Other "chan int" None None) h123
    = (Returns (nil_slice, Some (Errorf "unrecognized type: chan int")), h123)
  /\ MustToBytes double ReadAll_empty (Other "chan int" None None) h123
      = (Panics "unrecognized type: chan int", h123).
Proof.
  apply (proj1 (ToBytes_unrecognized double ReadAll_empty)
           (Other "chan int" None None) h123).
  reflexivity.
Defined.

(** [NewByteReader] wraps at most once: what it returns always has both
    methods, so handing that back in returns it unchanged. *)
Lemma NewByteReader_idempotent r (o : objects) :
  NewByteReader (NewByteReader r o).1 (NewByteReader r o).2 = NewByteReader r o.
Proof.
  unfold NewByteReader. destruct (implements_ByteReader r) eqn:Hr; simpl.
  - by rewrite Hr.
  - reflexivity.
Qed.

(** C10. For a reader whose dynamic type already has both [Read] and
    [ReadByte], [NewByteReader] returns that same reader and allocates no
    wrapper (the table of wrappers is unchanged); hence applying
    [NewByteReader] to its own result gives what applying it once gave. *)
Theorem NewByteReader_identity r (o : objects) :
  implements_ByteReader r = true ->
  NewByteReader r o = (r, o)
  /\ NewByteReader (NewByteReader r o).1 (NewByteReader r o).2 = NewByteReader r o.
Proof.
  intros Hr. unfold NewByteReader. rewrite Hr. simpl. by rewrite Hr.
Qed.

Lemma NewByteReader_identity_witness :
  NewByteReader bufio_reader ∅ = (bufio_reader, ∅)
  /\ NewByteReader (NewByteReader bufio_reader ∅).1 (NewByteReader bufio_reader ∅).2
      = NewByteReader bufio_reader ∅.
Proof.
  apply (NewByteReader_identity bufio_reader ∅). reflexivity.
Defined.

End UtilsSpec.

(** * The pool's size classes *)

Module PoolFacts.
Import Pool.

Lemma power_of_two_pow k : 0 <= k -> power_of_two (2 ^ k).
Proof. intros Hk. by exists k. Qed.

(** The walk up the classes stops at the least power of two that is large
    enough, as long as the fuel reaches one that is. *)
Lemma ceil_class_smallest fuel : forall k size,
  0 <= k ->
  (forall i, 0 <= i < k -> 2 ^ i < size) ->
  size <= 2 ^ (k + Z.of_nat fuel) ->
  smallest_class_ge size (ceil_class fuel (2 ^ k) size).
Proof.
  induction fuel as [|fuel IH]; intros k size Hk Hbelow Hfuel.
  - simpl. rewrite Z.add_0_r in Hfuel.
    split; [by apply power_of_two_pow|]. split; [exact Hfuel|].
    intros c' (i & Hi & ->) Hc'.
    apply Z.pow_le_mono_r; [lia|].
    destruct (Z_lt_le_dec i k) as [Hlt|Hge]; [|exact Hge].
    specialize (Hbelow i ltac:(lia)). lia.
  - simpl. destruct (Z.leb_spec size (2 ^ k)) as [Hle|Hgt].
    + split; [by apply power_of_two_pow|]. split; [exact Hle|].
      intros c' (i & Hi & ->) Hc'.
      apply Z.pow_le_mono_r; [lia|].
      destruct (Z_lt_le_dec i k) as [Hlt|Hge]; [|exact Hge].
      specialize (Hbelow i ltac:(lia)). lia.
    + replace (2 * 2 ^ k) with (2 ^ (k + 1)) by (rewrite Z.pow_add_r; lia).
      apply IH; [lia | | ].
      * intros i Hi. destruct (Z_lt_le_dec i k) as [Hlt|Hge].
        -- apply Hbelow. lia.
        -- replace i with k by lia. exact Hgt.
      * replace (k + 1 + Z.of_nat fuel) with (k + Z.of_nat (S fuel)) by lia.
        exact Hfuel.
Qed.

(** [CeilToPowerOfTwo] is the smallest power of two at or above [size]. *)
Lemma CeilToPowerOfTwo_smallest size : smallest_class_ge size (CeilToPowerOfTwo size).
Proof.
  unfold CeilToPowerOfTwo. change 1 with (2 ^ 0) at 1.
  apply ceil_class_smallest; [lia | intros i Hi; lia |].
  rewrite Z.add_0_l. destruct (Z_lt_le_dec size 0) as [Hneg|Hpos].
  - pose proof (Z.pow_nonneg 2 (Z.of_nat (Z.to_nat size))). lia.
  - rewrite Z2Nat.id by lia.
    pose proof (Z.pow_gt_lin_r 2 size). lia.
Qed.

(** There is only one smallest class for a size. *)
Lemma smallest_class_ge_unique size c c' :
  smallest_class_ge size c -> smallest_class_ge size c' -> c = c'.
Proof.
  intros (Hp & Hs & Hmin) (Hp' & Hs' & Hmin').
  specialize (Hmin c' Hp' Hs'). specialize (Hmin' c Hp Hs). lia.
Qed.

(** The capacity [Get] reports does not depend on the released buffers. *)
Lemma granted_size_class p size : granted p size = size_class (max p) size.
Proof.
  unfold granted, Get.
  destruct (free p !! size_class (max p) size) as [[|b rest]|]; reflexivity.
Qed.

(** The ceiling [New] gives a pool: the greatest power of two within the
    argument. *)
Lemma New_ceiling n p :
  New n = Some p -> power_of_two (max p) /\ max p <= n /\ n < 2 * max p.
Proof.
  unfold New. destruct (Z.ltb_spec 0 n) as [Hn|Hn]; [|discriminate].
  intros [= <-]. simpl.
  pose proof (Z.log2_nonneg n) as Hl.
  destruct (Z.log2_spec n Hn) as [Hlo Hhi].
  split; [by apply power_of_two_pow|]. split; [exact Hlo|].
  rewrite Z.pow_succ_r in Hhi by exact Hl. exact Hhi.
Qed.

(** Under a ceiling that is a power of two the granted capacity is one. *)
Lemma granted_power_of_two p s : power_of_two (max p) -> power_of_two (granted p s).
Proof.
  intros Hm. rewrite granted_size_class. unfold size_class.
  destruct (CeilToPowerOfTwo_smallest s) as (Hp & _ & _).
  by destruct (max p <? CeilToPowerOfTwo s).
Qed.

Lemma granted_le_max p s : power_of_two (max p) -> granted p s <= max p.
Proof.
  intros Hm. rewrite granted_size_class. unfold size_class.
  destruct (Z.ltb_spec (max p) (CeilToPowerOfTwo s)); lia.
Qed.

End PoolFacts.

Module PoolSpec.
Import Pool PoolFacts Scenario.

(** C1. For every pool with a positive ceiling [max] and every requested
    size, the capacity [Get] grants is the smallest power of two that is
    at least the requested size, or [max] when that class exceeds [max].
    With a request of 10 the pool of ceiling 32 grants 16, the pool of
    ceiling 16 grants 16, and the pool of ceiling 8 grants 8. *)
Theorem Get_grants_clamped_class :
  (forall (p : Pool) (size c : Z),
     0 < max p -> smallest_class_ge size c ->
     granted p size = (if max p <? c then max p else c))
  /\ (forall size, exists c, smallest_class_ge size c)
  /\ (New 32 = Some (pool 32) /\ granted (pool 32) 10 = 16)
  /\ (New 16 = Some (pool 16) /\ granted (pool 16) 10 = 16)
  /\ (New 8 = Some (pool 8) /\ granted (pool 8) 10 = 8).
Proof.
  split; [|split; [|repeat split]].
  - intros p size c Hmax Hc.
    rewrite granted_size_class. unfold size_class.
    by rewrite (smallest_class_ge_unique _ _ _ Hc (CeilToPowerOfTwo_smallest size)).
  - intros size. exists (CeilToPowerOfTwo size). apply CeilToPowerOfTwo_smallest.
Qed.

Lemma Get_grants_clamped_class_witness :
  granted (pool 32) 10 = (if max (pool 32) <? 16 then max (pool 32) else 16).
Proof.
  apply (proj1 Get_grants_clamped_class (pool 32) 10 16).
  - reflexivity.
  - exact (CeilToPowerOfTwo_smallest 10).
Defined.

(** C2. Every pool that [New] constructs has as its ceiling [max] a power
    of two (the greatest one within the argument of [New]), and [Get] and
    [Put] leave the ceiling as it is.  For every pool whose ceiling [max]
    is a power of two and every requested size [s <= max], the capacity
    [Get] grants is a power of two, is at least [s], and is at most
    [max].  (For any requested size at all it is a power of two within
    the argument [New] was given.) *)
Theorem Get_within_ceiling :
  (forall n p, New n = Some p ->
     0 < n /\ power_of_two (max p) /\ max p <= n /\ n < 2 * max p)
  /\ (forall p b size, max (Put p b) = max p /\ max (Get p size).2 = max p)
  /\ (forall p s,
        power_of_two (max p) -> s <= max p ->
        power_of_two (granted p s) /\ s <= granted p s /\ granted p s <= max p)
  /\ (forall n p s,
        New n = Some p -> power_of_two (granted p s) /\ granted p s <= n).
Proof.
  split; [|split; [|split]].
  - intros n p Hnew. split; [|by apply New_ceiling].
    unfold New in Hnew. destruct (Z.ltb_spec 0 n); [done | discriminate].
  - intros p b size. split.
    + unfold Put. by destruct (is_power_of_two (capacity b) && (capacity b <=? max p)).
    + unfold Get. by destruct (free p !! size_class (max p) size) as [[|b' rest]|].
  - intros p s Hm Hs.
    split; [by apply granted_power_of_two|]. split; [|by apply granted_le_max].
    destruct (CeilToPowerOfTwo_smallest s) as (Hp & Hge & Hmin).
    specialize (Hmin (max p) Hm Hs).
    rewrite granted_size_class. unfold size_class.
    destruct (Z.ltb_spec (max p) (CeilToPowerOfTwo s)); lia.
  - intros n p s Hnew. destruct (New_ceiling n p Hnew) as (Hm & Hle & _).
    split; [by apply granted_power_of_two|].
    pose proof (granted_le_max p s Hm). lia.
Qed.

Lemma Get_within_ceiling_witness :
  power_of_two (granted (pool 32) 10)
  /\ 10 <= granted (pool 32) 10 /\ granted (pool 32) 10 <= max (pool 32).
Proof.
  apply (proj1 (proj2 (proj2 Get_within_ceiling)) (pool 32) 10).
  - exists 5. split; [discriminate | reflexivity].
  - discriminate.
Defined.

End PoolSpec.

(** * Further properties of utils/reader.go *)

Module UtilsMore.
Import Mem Utils MemFacts UtilsFacts Scenario.

Lemma wrap64_idemp_l a b : wrap64 (wrap64 a + b) = wrap64 (a + b).
Proof.
  unfold wrap64.
  replace ((a + 2 ^ 63) mod 2 ^ 64 - 2 ^ 63 + b + 2 ^ 63)
    with ((a + 2 ^ 63) mod 2 ^ 64 + b) by lia.
  rewrite Zplus_mod_idemp_l. f_equal. f_equal. lia.
Qed.

Lemma wrap64_range z : - 2 ^ 63 <= wrap64 z < 2 ^ 63.
Proof.
  unfold wrap64. pose proof (Z.mod_pos_bound (z + 2 ^ 63) (2 ^ 64)). lia.
Qed.

Lemma CountOf_fold buffs : forall n,
  fold_left (fun n buff => wrap64 (n + Z.of_nat (len buff))) buffs (wrap64 n)
  = wrap64 (n + Z.of_nat (total_len buffs)).
Proof.
  induction buffs as [|b buffs IH]; intros n; simpl.
  - unfold total_len. simpl. f_equal. lia.
  - rewrite wrap64_idemp_l, IH, total_len_cons. f_equal. lia.
Qed.

Lemma total_len_app a b : total_len (a ++ b) = (total_len a + total_len b)%nat.
Proof.
  unfold total_len. rewrite fmap_app. induction (len <$> a) as [|x xs IH]; simpl; lia.
Qed.

(** X1. [CountOf] is the sum of the fragments' lengths reduced to a signed
    64-bit integer: it is that sum wrapped, it is the sum itself when the
    sum fits, and counting a concatenation is adding the counts (wrapped);
    the fragments' bytes and the store play no part. *)
Theorem CountOf_is_wrapped_sum :
  (forall buffs, CountOf buffs = wrap64 (Z.of_nat (total_len buffs)))
  /\ (forall buffs, - 2 ^ 63 <= CountOf buffs < 2 ^ 63)
  /\ (forall buffs, Z.of_nat (total_len buffs) < 2 ^ 63 ->
        CountOf buffs = Z.of_nat (total_len buffs))
  /\ (forall a b, CountOf (a ++ b) = wrap64 (CountOf a + CountOf b))
  /\ CountOf [] = 0.
Proof.
  assert (forall buffs, CountOf buffs = wrap64 (Z.of_nat (total_len buffs))) as Hsum.
  { intros buffs. unfold CountOf. change 0 with (wrap64 0) at 1.
    by rewrite CountOf_fold. }
  split; [exact Hsum|]. split; [|split; [|split]].
  - intros buffs. rewrite Hsum. apply wrap64_range.
  - intros buffs Hfit. rewrite Hsum. apply wrap64_small. lia.
  - intros a b. rewrite !Hsum, total_len_app, wrap64_idemp_l.
    rewrite (Z.add_comm (Z.of_nat (total_len a))), wrap64_idemp_l.
    f_equal. lia.
  - reflexivity.
Qed.

Lemma CountOf_is_wrapped_sum_witness : CountOf [s12; s3] = Z.of_nat (total_len [s12; s3]).
Proof.
  apply (proj1 (proj2 (proj2 CountOf_is_wrapped_sum)) [s12; s3]).
  vm_compute. reflexivity.
Defined.

(** Slices see the same bytes in two stores that agree on their array. *)
Lemma valid_agree (h h' : heap) s :
  (forall l, arr s = Some l -> h' !! l = h !! l) -> valid h' s = valid h s.
Proof.
  intros Hag. unfold valid. destruct (arr s) as [l|]; [|done].
  by rewrite Hag.
Qed.

Lemma content_agree (h h' : heap) s :
  (forall l, arr s = Some l -> h' !! l = h !! l) -> content h' s = content h s.
Proof.
  intros Hag. unfold content, array_of. destruct (arr s) as [l|]; [|done].
  by rewrite Hag.
Qed.

Lemma valid_in_dom (h : heap) s l : valid h s = true -> arr s = Some l -> l ∈ dom h.
Proof.
  intros Hv Hl. destruct (valid_array _ _ _ Hv Hl) as (a & Ha & _).
  apply elem_of_dom. by exists a.
Qed.

Lemma blit_nothing a k : blit a k [] = a.
Proof. unfold blit. simpl. rewrite Nat.add_0_r. apply take_drop. Qed.

Lemma length_concat_contents (h : heap) ps :
  Forall (fun p => valid h p = true) ps ->
  length (concat (content h <$> ps)) = total_len ps.
Proof.
  induction 1 as [|p ps Hp _ IH]; [reflexivity|].
  rewrite total_len_cons, fmap_cons. cbn [concat].
  rewrite length_app, content_length by done. by rewrite IH.
Qed.

Section Stealing.
Variable growcap : nat -> nat -> nat.

(** One [Write] of a slice of the caller's store [h0], for a stealer whose
    data is valid, in a store [h] that still agrees with [h0] on all of
    [h0]'s arrays, the data having no spare room or lying in an array that
    [h0] does not have: all of that holds again afterwards, and the data
    has grown by the slice's bytes. *)
Lemma Write_keeps (h0 h : heap) s p :
  valid h (Data s) = true ->
  (forall l, l ∈ dom h0 -> h !! l = h0 !! l) ->
  (room (Data s) = 0%nat \/ exists l, arr (Data s) = Some l /\ l ∉ dom h0) ->
  valid h0 p = true ->
  exists s' h',
    Write growcap s p h = Returns (s', h', (Z.of_nat (len p), None))
    /\ valid h' (Data s') = true
    /\ (forall l, l ∈ dom h0 -> h' !! l = h0 !! l)
    /\ (room (Data s') = 0%nat \/ exists l, arr (Data s') = Some l /\ l ∉ dom h0)
    /\ content h' (Data s') = content h (Data s) ++ content h0 p.
Proof.
  intros Hv Hframe Hown Hp0.
  assert (forall l, arr p = Some l -> h !! l = h0 !! l) as Hpag.
  { intros l Hl. apply Hframe. by eapply valid_in_dom. }
  assert (valid h p = true) as Hp by (by rewrite (valid_agree h0 h)).
  assert (content h p = content h0 p) as Hcp by (by apply content_agree).
  pose proof (content_length _ _ Hp) as Lp.
  rewrite Write_returns.
  destruct (is_nil (Data s)) eqn:Hnil.
  - eexists _, _. split; [reflexivity|]. simpl.
    unfold is_nil in Hnil. destruct (arr (Data s)) eqn:Hd; [discriminate|].
    split; [|split; [exact Hframe|split; [by left|]]].
    + unfold valid in *. simpl. destruct (arr p) as [l|]; [|].
      * destruct (h !! l); [|done]. apply Nat.leb_le in Hp. apply Nat.leb_le. lia.
      * apply andb_true_iff in Hp as [Hp _]. by rewrite Hp.
    + unfold content at 2. rewrite Hd. simpl. rewrite <- Hcp.
      unfold content. simpl. reflexivity.
  - unfold is_nil in Hnil. destruct (arr (Data s)) as [l|] eqn:Hd; [|discriminate].
    destruct (valid_array _ _ _ Hv Hd) as (a & Ha & Hle).
    eexists _, _. split; [reflexivity|]. cbn [Data].
    split; [|split; [|split]].
    + destruct (Nat.leb (len p) (room (Data s))) eqn:Hfit.
      * apply Nat.leb_le in Hfit.
        rewrite (append_in_place growcap h _ p l a Hd Ha Hfit). simpl.
        unfold valid. simpl. rewrite lookup_insert_eq.
        apply Nat.leb_le. rewrite blit_length; lia.
      * unfold append. rewrite Hfit. simpl.
        unfold valid. simpl. rewrite lookup_insert_eq.
        apply Nat.leb_le. rewrite !length_app, length_replicate.
        rewrite Lp, (content_length _ _ Hv). lia.
    + intros l' Hl'.
      destruct (Nat.leb (len p) (room (Data s))) eqn:Hfit.
      * apply Nat.leb_le in Hfit.
        rewrite (append_in_place growcap h _ p l a Hd Ha Hfit). simpl.
        destruct Hown as [Hroom | (l1 & Hl1 & Hout)].
        -- assert (content h p = []) as ->
             by (apply length_zero_iff_nil; lia).
           rewrite blit_nothing, insert_id by done. by apply Hframe.
        -- injection Hl1 as <-.
           rewrite lookup_insert_ne by (intros ->; done). by apply Hframe.
      * unfold append. rewrite Hfit. simpl.
        rewrite lookup_insert_ne; [by apply Hframe|].
        intros Heq. apply (is_fresh (dom h)). rewrite Heq.
        apply elem_of_dom. rewrite Hframe by done. by apply elem_of_dom.
    + destruct (Nat.leb (len p) (room (Data s))) eqn:Hfit.
      * apply Nat.leb_le in Hfit.
        rewrite (append_in_place growcap h _ p l a Hd Ha Hfit). simpl.
        destruct Hown as [Hroom | (l1 & Hl1 & Hout)]; [left; lia|].
        right. exists l. split; [done|]. by injection Hl1 as <-.
      * unfold append. rewrite Hfit. simpl. right.
        eexists. split; [reflexivity|].
        intros Hin. apply (is_fresh (dom h)).
        apply elem_of_dom. rewrite Hframe by done. by apply elem_of_dom.
    + rewrite <- Hcp. by apply append_content.
Qed.

(** The run of [writes ps n err] from any such state. *)
Lemma WriteTo_writes (h0 : heap) n err ps : forall s (h : heap),
  valid h (Data s) = true ->
  (forall l, l ∈ dom h0 -> h !! l = h0 !! l) ->
  (room (Data s) = 0%nat \/ exists l, arr (Data s) = Some l /\ l ∉ dom h0) ->
  Forall (fun p => valid h0 p = true) ps ->
  exists st h',
    WriteTo growcap (writes ps n err) s h = (Returns (n, err), st, h')
    /\ valid h' (Data st) = true
    /\ (forall l, l ∈ dom h0 -> h' !! l = h0 !! l)
    /\ content h' (Data st) = content h (Data s) ++ concat (content h0 <$> ps).
Proof.
  induction ps as [|p ps IH]; intros s h Hv Hframe Hown Hall.
  - exists s, h. simpl. rewrite app_nil_r. done.
  - apply Forall_cons in Hall as [Hp Hall].
    destruct (Write_keeps h0 h s p Hv Hframe Hown Hp)
      as (s1 & h1 & Hw & Hv1 & Hframe1 & Hown1 & Hc1).
    destruct (IH s1 h1 Hv1 Hframe1 Hown1 Hall) as (st & h' & Hrun & Hv' & Hframe' & Hc').
    exists st, h'. cbn [writes WriteTo]. rewrite Hw, Hrun.
    split; [done|]. split; [done|]. split; [done|].
    rewrite Hc', Hc1. simpl. by rewrite app_assoc.
Qed.

(** X2. A source that hands valid slices to the sink one after the other
    (and does nothing else to memory) gets captured exactly the bytes of
    those slices in order, however many writes it takes and whatever the
    growth policy; no array that existed before the call is written to;
    and when the source reports the total length with no error,
    [StealBytes] returns that captured data. *)
Theorem StealBytes_concatenates (ps : list slice) (h : heap) :
  Forall (fun p => valid h p = true) ps ->
  exists s h',
    StealBytes growcap (writes ps (Z.of_nat (total_len ps)) None) h
      = (Returns (s, None), h')
    /\ content h' s = concat (content h <$> ps)
    /\ len s = total_len ps
    /\ (forall l, l ∈ dom h -> h' !! l = h !! l).
Proof.
  intros Hall.
  destruct (WriteTo_writes h (Z.of_nat (total_len ps)) None ps
              {| Data := nil_slice |} h)
    as (st & h' & Hrun & Hv & Hframe & Hc); [done | done | by left | done |].
  simpl in Hc.
  assert (len (Data st) = total_len ps) as Hlen.
  { rewrite <- (content_length _ _ Hv), Hc. by apply length_concat_contents. }
  exists (Data st), h'.
  rewrite (StealBytes_after _ _ _ _ _ _ _ Hrun).
  rewrite bool_decide_eq_true_2 by (by rewrite Hlen).
  done.
Qed.

End Stealing.

Lemma StealBytes_concatenates_witness :
  exists s h',
    StealBytes double (writes [s12; s3; s12] (Z.of_nat (total_len [s12; s3; s12])) None) h12_3
      = (Returns (s, None), h')
    /\ content h' s = concat (content h12_3 <$> [s12; s3; s12])
    /\ len s = total_len [s12; s3; s12]
    /\ (forall l, l ∈ dom h12_3 -> h' !! l = h12_3 !! l).
Proof.
  apply (StealBytes_concatenates double [s12; s3; s12] h12_3).
  repeat constructor.
Defined.


(** The tail of a window is a window of the tail. *)
Lemma take_drop_tail (a : list byte) o n i :
  (i <= n)%nat -> take (n - i) (drop (o + i) a) = drop i (take n (drop o a)).
Proof.
  intros Hi. rewrite <- drop_drop, take_drop_commute.
  do 2 f_equal. lia.
Qed.

Section ZeroCopy.
Variable growcap : nat -> nat -> nat.
Variable ReadAll : Reader -> heap -> outcome (slice * option error) * heap.

(** X3. The stolen data is the source's own memory, not a copy: when a
    source writes [p] and afterwards stores a byte into [p]'s backing array
    (a source that reuses its buffer), [StealBytes] returns [p]'s array
    and range, and the bytes it denotes have that later store in them. *)
Theorem StealBytes_aliases_source (p : slice) (i : nat) (b : byte) (h : heap) l :
  arr p = Some l -> valid h p = true -> (i < len p)%nat ->
  exists h',
    StealBytes growcap (write_then_store p i b) h
      = (Returns (Slice (Some l) (off p) (len p) 0, None), h')
    /\ content h' (Slice (Some l) (off p) (len p) 0) = <[i := b]> (content h p)
    /\ content h' (Slice (Some l) (off p) (len p) 0) !! i = Some b.
Proof.
  intros Hl Hv Hi.
  destruct (valid_array _ _ _ Hv Hl) as (a & Ha & Hle).
  destruct p as [ap op lp rp]. simpl in Hl. subst ap. simpl in *.
  exists (alter (fun a => <[(op + i)%nat := b]> a) l h).
  assert (content (alter (fun a => <[(op + i)%nat := b]> a) l h)
            (Slice (Some l) op lp 0) = <[i := b]> (content h (Slice (Some l) op lp rp))) as Hc.
  { unfold content, array_of. simpl. rewrite lookup_alter_eq, Ha. simpl.
    rewrite drop_insert_ge by lia.
    rewrite take_insert_lt by lia.
    f_equal. lia. }
  split; [|split; [exact Hc|]].
  - unfold StealBytes, write_then_store. cbn [WriteTo].
    rewrite Write_returns. simpl.
    by rewrite Z.eqb_refl.
  - rewrite Hc. apply list_lookup_insert_eq.
    rewrite (content_length _ _ Hv). exact Hi.
Qed.

(** X4. For a [*bytes.Reader] with unread bytes, [ToBytes] returns the
    unread part of the reader's own slice (same backing array, offset
    moved by the read index, capacity cut to the length) with no error
    and without writing to any byte array: its bytes are the slice's
    bytes from the read index on.  The call drains the reader: its read
    index ends at the length of its slice, and [ToBytes] of the reader in
    that state returns the nil slice and no error.  So does [ToBytes] of
    any reader at its end, whose index stays where it was. *)
Theorem ToBytes_bytes_Reader (r : bytesReader) (h : heap) :
  ((br_i r < len (br_s r))%nat ->
     ToBytes growcap ReadAll (BytesReader r) h
       = (Returns (Slice (arr (br_s r)) (off (br_s r) + br_i r)
                     (len (br_s r) - br_i r) 0, None), h)
     /\ content h (Slice (arr (br_s r)) (off (br_s r) + br_i r)
                     (len (br_s r) - br_i r) 0)
        = drop (br_i r) (content h (br_s r))
     /\ index_after growcap (bytesReader_WriteTo r) {| Data := nil_slice |} h (br_i r)
        = len (br_s r)
     /\ ToBytes growcap ReadAll
          (BytesReader {| br_s := br_s r; br_i := len (br_s r) |}) h
        = (Returns (nil_slice, None), h))
  /\ ((len (br_s r) <= br_i r)%nat ->
        ToBytes growcap ReadAll (BytesReader r) h = (Returns (nil_slice, None), h)
        /\ index_after growcap (bytesReader_WriteTo r) {| Data := nil_slice |} h (br_i r)
           = br_i r).
Proof.
  assert (forall r' : bytesReader, (len (br_s r') <= br_i r')%nat ->
            ToBytes growcap ReadAll (BytesReader r') h = (Returns (nil_slice, None), h)
            /\ index_after growcap (bytesReader_WriteTo r') {| Data := nil_slice |} h
                 (br_i r') = br_i r') as Hend.
  { intros r' Hi. cbn [ToBytes]. unfold StealBytes, bytesReader_WriteTo.
    replace (Nat.leb (len (br_s r')) (br_i r')) with true
      by (symmetry; apply Nat.leb_le; lia).
    split; reflexivity. }
  split; [|apply Hend].
  intros Hi. split; [|split; [|split]].
  - cbn [ToBytes]. unfold StealBytes, bytesReader_WriteTo.
    replace (Nat.leb (len (br_s r)) (br_i r)) with false
      by (symmetry; apply Nat.leb_gt; lia).
    cbn [WriteTo]. rewrite Write_returns.
    cbn [Data nil_slice is_nil arr slice_from len off].
    rewrite Z.ltb_irrefl, Z.eqb_refl. cbn [negb andb WriteTo].
    rewrite Z.eqb_refl. reflexivity.
  - unfold content. simpl. destruct (arr (br_s r)) as [l|]; [|by rewrite drop_nil].
    apply take_drop_tail. lia.
  - unfold bytesReader_WriteTo.
    replace (Nat.leb (len (br_s r)) (br_i r)) with false
      by (symmetry; apply Nat.leb_gt; lia).
    cbn [index_after]. rewrite Write_returns.
    cbn [Data nil_slice is_nil arr slice_from len off].
    rewrite Z.ltb_irrefl. cbn [index_after]. lia.
  - apply (Hend {| br_s := br_s r; br_i := len (br_s r) |}). simpl. lia.
Qed.

(** X5. For a [*strings.Reader] with unread bytes, [ToBytes] returns, with
    no error, a slice over one array that did not exist before, holding
    exactly the unread bytes of the string, and leaves every existing
    array as it was: here the steal costs one copy.  For a reader at its
    end it returns the nil slice and no error, and allocates nothing. *)
Theorem ToBytes_strings_Reader (r : stringsReader) (h : heap) :
  ((sr_i r < length (list_byte_of_string (sr_s r)))%nat ->
     exists s h',
       ToBytes growcap ReadAll (StringsReader r) h = (Returns (s, None), h')
       /\ arr s = Some (fresh (dom h)) /\ (fresh (dom h) ∉ dom h)
       /\ content h' s = drop (sr_i r) (list_byte_of_string (sr_s r))
       /\ (forall l, l ∈ dom h -> h' !! l = h !! l))
  /\ ((length (list_byte_of_string (sr_s r)) <= sr_i r)%nat ->
        ToBytes growcap ReadAll (StringsReader r) h = (Returns (nil_slice, None), h)).
Proof.
  split.
  - intros Hi.
    set (bs := drop (sr_i r) (list_byte_of_string (sr_s r))).
    exists (Slice (Some (fresh (dom h))) 0 (length bs) 0), (<[fresh (dom h) := bs]> h).
    split; [|split; [reflexivity|split; [apply is_fresh|split]]].
    + cbn [ToBytes]. unfold StealBytes, stringsReader_WriteTo.
      replace (Nat.leb (length (list_byte_of_string (sr_s r))) (sr_i r)) with false
        by (symmetry; apply Nat.leb_gt; lia).
      fold bs. cbn [WriteTo]. unfold alloc. rewrite Write_returns.
      cbn [Data nil_slice is_nil arr len off].
      rewrite Z.ltb_irrefl, Z.eqb_refl. cbn [negb andb WriteTo].
      rewrite Z.eqb_refl. reflexivity.
    + unfold content, array_of. simpl. rewrite lookup_insert_eq. simpl.
      rewrite drop_0. by rewrite take_ge.
    + intros l Hl. apply lookup_insert_ne. intros <-.
      by apply (is_fresh (dom h)).
  - intros Hi. cbn [ToBytes]. unfold StealBytes, stringsReader_WriteTo.
    replace (Nat.leb (length (list_byte_of_string (sr_s r))) (sr_i r)) with true
      by (symmetry; apply Nat.leb_le; lia).
    reflexivity.
Qed.

(** X6. For a [*bytes.Buffer] (whose read offset is within its length, as
    the buffer keeps it), [ToBytes] returns the unread part of the
    buffer's own slice, spare capacity included, with no error and
    without touching the store; its bytes are the buffer's bytes from the
    read offset on. *)
Theorem ToBytes_bytes_Buffer (b : Buffer) (h : heap) :
  (boff b <= len (buf b))%nat ->
  ToBytes growcap ReadAll (BytesBuffer b) h
    = (Returns (Slice (arr (buf b)) (off (buf b) + boff b)
                  (len (buf b) - boff b) (room (buf b)), None), h)
  /\ content h (Slice (arr (buf b)) (off (buf b) + boff b)
                  (len (buf b) - boff b) (room (buf b)))
     = drop (boff b) (content h (buf b)).
Proof.
  intros Hoff. split.
  - cbn [ToBytes]. unfold Buffer_Bytes, slice3, cap.
    replace (Nat.leb (boff b) (len (buf b))) with true
      by (symmetry; apply Nat.leb_le; lia).
    replace (Nat.leb (len (buf b)) (len (buf b) + room (buf b))) with true
      by (symmetry; apply Nat.leb_le; lia).
    rewrite Nat.leb_refl. cbn [andb].
    by replace (len (buf b) + room (buf b) - len (buf b))%nat
      with (room (buf b)) by lia.
  - unfold content. simpl. destruct (arr (buf b)) as [l|]; [|by rewrite drop_nil].
    apply take_drop_tail. lia.
Qed.

End ZeroCopy.

Lemma StealBytes_aliases_source_witness :
  exists h',
    StealBytes double (write_then_store s12 1 xff) h12_3
      = (Returns (Slice (Some 1%positive) (off s12) (len s12) 0, None), h')
    /\ content h' (Slice (Some 1%positive) (off s12) (len s12) 0)
       = <[1%nat := xff]> (content h12_3 s12)
    /\ content h' (Slice (Some 1%positive) (off s12) (len s12) 0) !! 1%nat = Some xff.
Proof.
  apply (StealBytes_aliases_source double s12 1 xff h12_3 1%positive);
    [reflexivity | reflexivity | vm_compute; lia].
Defined.

Lemma ToBytes_bytes_Reader_witness :
  ToBytes double ReadAll_empty (BytesReader {| br_s := s123; br_i := 1 |}) h123
    = (Returns (Slice (Some 1%positive) 1 2 0, None), h123)
  /\ content h123 (Slice (Some 1%positive) 1 2 0) = [x02; x03]
  /\ index_after double (bytesReader_WriteTo {| br_s := s123; br_i := 1 |})
       {| Data := nil_slice |} h123 1 = 3%nat
  /\ ToBytes double ReadAll_empty (BytesReader {| br_s := s123; br_i := 3 |}) h123
     = (Returns (nil_slice, None), h123).
Proof.
  apply (proj1 (ToBytes_bytes_Reader double ReadAll_empty
                  {| br_s := s123; br_i := 1 |} h123)).
  vm_compute; lia.
Defined.

Lemma ToBytes_strings_Reader_witness :
  exists s h',
    ToBytes double ReadAll_empty (StringsReader {| sr_s := "abc"; sr_i := 1 |}) h123
      = (Returns (s, None), h')
    /\ arr s = Some (fresh (dom h123)) /\ (fresh (dom h123) ∉ dom h123)
    /\ content h' s = drop 1 (list_byte_of_string "abc")
    /\ (forall l, l ∈ dom h123 -> h' !! l = h123 !! l).
Proof.
  apply (proj1 (ToBytes_strings_Reader double ReadAll_empty
                  {| sr_s := "abc"; sr_i := 1 |} h123)).
  vm_compute; lia.
Defined.

Lemma ToBytes_bytes_Buffer_witness :
  ToBytes double ReadAll_empty (BytesBuffer {| buf := s123; boff := 2 |}) h123
    = (Returns (Slice (Some 1%positive) 2 1 0, None), h123)
  /\ content h123 (Slice (Some 1%positive) 2 1 0) = drop 2 (content h123 s123).
Proof.
  apply (ToBytes_bytes_Buffer double ReadAll_empty {| buf := s123; boff := 2 |} h123).
  vm_compute; lia.
Defined.

(** X7. Whatever reader it is given, [NewByteReader] returns one that has
    both [Read] and [ReadByte]; handing that result back in returns it
    unchanged, so at most one wrapper is ever put around a reader; and no
    [byteReader] that already exists is changed. *)
Theorem NewByteReader_wraps_once (r : Reader) (o : objects) :
  implements_ByteReader (NewByteReader r o).1 = true
  /\ NewByteReader (NewByteReader r o).1 (NewByteReader r o).2 = NewByteReader r o
  /\ (forall l, l ∈ dom o -> (NewByteReader r o).2 !! l = o !! l).
Proof.
  unfold NewByteReader. destruct (implements_ByteReader r) eqn:Hr; simpl.
  - rewrite Hr. done.
  - split; [done|]. split; [done|].
    intros l Hl. apply lookup_insert_ne. intros <-. by apply (is_fresh (dom o)).
Qed.

(** X8. For a reader [r] without [ReadByte], [NewByteReader] returns a
    pointer to a new [byteReader] at an unused address, and [ReadByte] on
    it is one [Read] of [r] on a one-byte buffer: it returns the byte
    [Read] stored together with [Read]'s error, and when [Read] stored
    nothing it returns the zero byte with [Read]'s error, a nil error
    included (the count is not looked at); a panic of [Read] is passed
    on; and for the nil reader [ReadByte] panics. *)
Theorem ReadByte_of_NewByteReader
  (Read : Reader -> outcome read_result) (r : Reader) (o : objects) :
  implements_ByteReader r = false ->
  exists l o',
    NewByteReader r o = (ByteReaderPtr l, o')
    /\ (l ∉ dom o)
    /\ (r = NilReader -> exists why, ReadByte Read o' l = Panics why)
    /\ (forall res, r <> NilReader -> Read r = Returns res ->
          ReadByte Read o' l
          = Returns (match stored res with b :: _ => b | [] => x00 end, rerr res))
    /\ (forall why, r <> NilReader -> Read r = Panics why ->
          ReadByte Read o' l = Panics why).
Proof.
  intros Hr. unfold NewByteReader. rewrite Hr.
  eexists _, _. split; [reflexivity|]. split; [apply is_fresh|].
  unfold ReadByte. rewrite lookup_insert_eq. simpl.
  split; [|split].
  - intros ->. eauto.
  - intros res Hnil Hread. destruct r as [|ty addr hb|addr]; [done| |];
      rewrite Hread; by destruct (stored res).
  - intros why Hnil Hread. destruct r as [|ty addr hb|addr]; [done| |];
      by rewrite Hread.
Qed.

Lemma ReadByte_of_NewByteReader_witness :
  exists l o',
    NewByteReader plain_reader ∅ = (ByteReaderPtr l, o')
    /\ (l ∉ dom (∅ : objects))
    /\ (plain_reader = NilReader ->
        exists why, ReadByte (fun _ => Returns {| stored := []; count := 0; rerr := None |}) o' l
                    = Panics why)
    /\ (forall res, plain_reader <> NilReader ->
          (fun _ : Reader => Returns {| stored := []; count := 0; rerr := None |}) plain_reader
            = Returns res ->
          ReadByte (fun _ => Returns {| stored := []; count := 0; rerr := None |}) o' l
          = Returns (match stored res with b :: _ => b | [] => x00 end, rerr res))
    /\ (forall why, plain_reader <> NilReader ->
          (fun _ : Reader => Returns {| stored := []; count := 0; rerr := None |}) plain_reader
            = Panics why ->
          ReadByte (fun _ => Returns {| stored := []; count := 0; rerr := None |}) o' l
          = Panics why).
Proof.
  apply (ReadByte_of_NewByteReader
           (fun _ => Returns {| stored := []; count := 0; rerr := None |})
           plain_reader ∅).
  reflexivity.
Defined.

Section Dispatch.
Variable growcap : nat -> nat -> nat.
Variable ReadAll : Reader -> heap -> outcome (slice * option error) * heap.

(** X9. [ToReader] accepts less than [ToBytes]: every message that
    [ToBytes] rejects as unrecognized is rejected by [ToReader] with the
    same error and no reader, and so is a message whose type has
    [WriteTo] but not [Read], which [ToBytes] does accept and steals
    from.  [ToReader] returns a reader exactly when it returns no
    error. *)
Theorem ToReader_accepts_less :
  (forall m, unrecognized m = true ->
     ToReader m = (None, Some (Errorf ("unrecognized type: " +:+ typeName m))))
  /\ (forall ty w (h : heap),
        ToReader (Other ty (Some w) None)
          = (None, Some (Errorf ("unrecognized type: " +:+ ty)))
        /\ ToBytes growcap ReadAll (Other ty (Some w) None) h = StealBytes growcap w h)
  /\ (forall m, (ToReader m).2 = None -> unrecognized m = false)
  /\ (forall m, is_Some (ToReader m).1 <-> (ToReader m).2 = None).
Proof.
  split; [|split; [|split]].
  - intros m Hm.
    destruct m as [| | | | | | | n | ty [wt|] [rd|]]; try discriminate; reflexivity.
  - intros ty w h. split; reflexivity.
  - intros m.
    destruct m as [| | | | | | | n | ty [wt|] [rd|]]; simpl; try discriminate; done.
  - intros m.
    destruct m as [| | | | | | | n | ty [wt|] [rd|]]; simpl;
      (split; [intros [x Hx]; first [done | discriminate]
              | intros Hx; first [discriminate | by eexists]]).
Qed.

Lemma remaining_of_fragments (h : heap) r :
  remaining h (Multi (map (fun b => OfBytes (bytes_NewReader b)) r))
  = Some (concat (content h <$> r)).
Proof.
  cbn [remaining]. induction r as [|b r IH]; [reflexivity|].
  cbn [map foldr]. rewrite IH. cbn [remaining bytes_NewReader br_i br_s].
  by rewrite drop_0.
Qed.

(** The bytes of [ToBytes] over fragments (the part of the concatenation
    result that the comparison with [ToReader] needs). *)
Lemma ToBytes_fragments_bytes (r : list slice) (h : heap) :
  Forall (fun f => valid h f = true) r ->
  Z.of_nat (total_len r) < 2 ^ 63 ->
  exists s h',
    ToBytes growcap ReadAll (Fragments r) h = (Returns (s, None), h')
    /\ content h' s = concat (content h <$> r).
Proof.
  intros Hvalid Hfit.
  set (l := fresh (dom h)).
  set (zeros := replicate (total_len r) x00).
  set (h0 := <[l := zeros]> h).
  destruct (write_each_in_place growcap r l 0 (total_len r) zeros h0)
    as (a' & Hrun & Hlen & Htake).
  { unfold h0. apply lookup_insert_eq. }
  { unfold zeros. rewrite length_replicate. lia. }
  { lia. }
  { eapply Forall_impl; [exact Hvalid|]. intros f Hf. simpl in Hf.
    pose proof (valid_not_fresh _ _ Hf) as Hne.
    split; [|exact Hne]. unfold h0. by rewrite valid_insert_ne. }
  exists (Slice (Some l) 0 (0 + total_len r) (total_len r - total_len r)),
    (<[l := a']> h0).
  split.
  - unfold ToBytes. rewrite CountOf_exact by exact Hfit.
    replace (Z.of_nat (total_len r) <? 0) with false
      by (symmetry; apply Z.ltb_ge; lia).
    rewrite Nat2Z.id. unfold make0, NewBuffer. fold l. fold zeros. fold h0.
    rewrite Hrun. by rewrite Buffer_Bytes_unread.
  - unfold content at 1. simpl. unfold array_of.
    rewrite lookup_insert_eq. simpl. rewrite drop_0.
    change (total_len r) with (0 + total_len r)%nat at 1.
    rewrite Htake. simpl. f_equal.
    apply Forall_fmap_ext_1. eapply Forall_impl; [exact Hvalid|].
    intros f Hf. simpl in Hf. unfold h0. apply content_insert_ne.
    exact (valid_not_fresh _ _ Hf).
Qed.

(** X10. [ToReader] and [ToBytes] agree on what a message holds: for a byte
    slice, for fragments (valid, of a total length that fits) and for a
    string, the reader [ToReader] builds has exactly the bytes that
    [ToBytes] returns, and neither reports an error. *)
Theorem ToReader_ToBytes_same_bytes :
  (forall b (h : heap), same_bytes growcap ReadAll h (Bytes b))
  /\ (forall r (h : heap),
        Forall (fun f => valid h f = true) r ->
        Z.of_nat (total_len r) < 2 ^ 63 ->
        same_bytes growcap ReadAll h (Fragments r))
  /\ (forall s (h : heap), same_bytes growcap ReadAll h (Str s)).
Proof.
  unfold same_bytes. split; [|split].
  - intros b h. eexists _, _, _. split; [reflexivity|]. split; [reflexivity|].
    cbn [remaining bytes_NewReader br_i br_s]. by rewrite drop_0.
  - intros r h Hvalid Hfit.
    destruct (ToBytes_fragments_bytes r h Hvalid Hfit) as (s & h' & Hto & Hc).
    eexists _, s, h'. split; [reflexivity|]. split; [exact Hto|].
    by rewrite remaining_of_fragments, Hc.
  - intros s h. eexists _, _, _. split; [reflexivity|]. split; [reflexivity|].
    cbn [remaining strings_NewReader sr_i sr_s]. rewrite drop_0. f_equal.
    unfold content, array_of. simpl. rewrite lookup_insert_eq. simpl.
    rewrite drop_0. by rewrite take_ge.
Qed.

End Dispatch.

Lemma ToReader_accepts_less_witness :
  ToReader (Int 42) = (None, Some (Errorf ("unrecognized type: " +:+ typeName (Int 42)))).
Proof.
  apply (proj1 (ToReader_accepts_less double ReadAll_empty) (Int 42)). reflexivity.
Defined.

Lemma ToReader_ToBytes_same_bytes_witness :
  same_bytes double ReadAll_empty h12_3 (Fragments [s12; s3]).
Proof.
  apply (proj1 (proj2 (ToReader_ToBytes_same_bytes double ReadAll_empty)) [s12; s3] h12_3).
  - repeat constructor.
  - vm_compute. reflexivity.
Defined.

(** X13. Only the first write is taken over without a copy, and the sink
    never grows into the caller's memory: after a first [Write] of a
    non-nil slice [p], however much spare capacity [p] has, a second
    [Write] of a non-empty slice [q] moves the captured data into an array
    that did not exist before and returns [len(q)] and no error; the data
    there has length [len(p) + len(q)] and, for valid [p] and [q], is the
    bytes of [p] followed by the bytes of [q]; every array that existed,
    [p]'s included, is left exactly as it was. *)
Theorem Write_twice_copies (growcap : nat -> nat -> nat) (p q : slice) (h : heap) :
  is_nil p = false -> (0 < len q)%nat ->
  exists st1 st2 h2,
    Write growcap {| Data := nil_slice |} p h = Returns (st1, h, (Z.of_nat (len p), None))
    /\ Write growcap st1 q h = Returns (st2, h2, (Z.of_nat (len q), None))
    /\ arr (Data st2) = Some (fresh (dom h)) /\ (fresh (dom h) ∉ dom h)
    /\ len (Data st2) = (len p + len q)%nat
    /\ (valid h p = true -> valid h q = true ->
        content h2 (Data st2) = content h p ++ content h q)
    /\ (forall l, l ∈ dom h -> h2 !! l = h !! l).
Proof.
  intros Hp Hq.
  destruct p as [[lp|] op np rp]; [|discriminate]. cbn [arr off len].
  set (d1 := Slice (Some lp) op np 0).
  exists {| Data := d1 |}, {| Data := (append growcap h d1 q).1 |},
    (append growcap h d1 q).2.
  split; [by rewrite Write_returns|].
  split; [by rewrite Write_returns|]. cbn [Data].
  split; [|split; [apply is_fresh|split; [|split]]].
  - unfold append, d1. cbn [room len].
    by replace (Nat.leb (len q) 0) with false by (symmetry; apply Nat.leb_gt; lia).
  - unfold append, d1. cbn [room len].
    by replace (Nat.leb (len q) 0) with false by (symmetry; apply Nat.leb_gt; lia).
  - intros Hvp Hvq.
    assert (valid h d1 = true) as Hv1.
    { unfold valid, d1 in *. simpl in *. destruct (h !! lp); [|done].
      apply Nat.leb_le in Hvp. apply Nat.leb_le. lia. }
    rewrite (append_content growcap h d1 q Hv1 Hvq). reflexivity.
  - intros l Hl. unfold append, d1. cbn [room len].
    replace (Nat.leb (len q) 0) with false by (symmetry; apply Nat.leb_gt; lia).
    cbn [snd]. apply lookup_insert_ne. intros <-. by apply (is_fresh (dom h)).
Qed.

Lemma Write_twice_copies_witness :
  exists st1 st2 h2,
    Write double {| Data := nil_slice |} (Slice (Some 1%positive) 0 1 1) h12_3
      = Returns (st1, h12_3, (Z.of_nat 1, None))
    /\ Write double st1 s3 h12_3 = Returns (st2, h2, (Z.of_nat (len s3), None))
    /\ arr (Data st2) = Some (fresh (dom h12_3)) /\ (fresh (dom h12_3) ∉ dom h12_3)
    /\ len (Data st2) = (1 + len s3)%nat
    /\ (valid h12_3 (Slice (Some 1%positive) 0 1 1) = true -> valid h12_3 s3 = true ->
        content h2 (Data st2)
        = content h12_3 (Slice (Some 1%positive) 0 1 1) ++ content h12_3 s3)
    /\ (forall l, l ∈ dom h12_3 -> h2 !! l = h12_3 !! l).
Proof.
  apply (Write_twice_copies double (Slice (Some 1%positive) 0 1 1) s3 h12_3).
  - reflexivity.
  - vm_compute; lia.
Defined.

End UtilsMore.

(** * tcp options carried in a context *)

Module TcpSpec.
Import Tcp.

(** Layers that do not bind [contextKey] do not change what it is bound to. *)
Lemma Value_derive layers : forall c,
  forallb foreign layers = true ->
  Value (derive layers c) contextKey = Value c contextKey.
Proof.
  induction layers as [|[[k v]|] layers IH]; intros c Hall; simpl in *.
  - reflexivity.
  - apply andb_true_iff in Hall as [Hk Hall].
    rewrite IH by exact Hall. simpl.
    by destruct (key_eqb k contextKey).
  - by rewrite IH.
Qed.

(** X11. Options put into a transport's context by [WithOptions] come back
    out of [FromContext]: applied to options with a non-nil context,
    [WithOptions(opt)] returns a nil error, and from the new context, and
    from any context derived from it later by bindings of other keys or
    by cancel contexts, [FromContext] returns [opt] whatever the default
    is.  This includes a nil [opt] (the nil pointer is returned, not the
    default) and a context that already held other options (the latest
    [WithOptions] wins). *)
Theorem FromContext_WithOptions
  (opt def : OptionsPtr) (options : transport_Options) (c : Context)
  (layers : list (option (key * value))) :
  Context_ options = Some c ->
  forallb foreign layers = true ->
  exists c',
    WithOptions opt options = Returns ({| Context_ := Some c' |}, None)
    /\ FromContext (Some (derive layers c')) def = Returns opt.
Proof.
  intros Hc Hall. exists (valueCtx c contextKey (optionsValue opt)).
  split.
  - unfold WithOptions, WithValue. by rewrite Hc.
  - unfold FromContext. by rewrite Value_derive.
Qed.

Lemma FromContext_WithOptions_witness :
  exists c',
    WithOptions None
      {| Context_ := Some (valueCtx Background contextKey (optionsValue (Some 7%positive))) |}
      = Returns ({| Context_ := Some c' |}, None)
    /\ FromContext
         (Some (derive [Some (foreignKey "trace", foreignValue "string"); None] c'))
         (Some 9%positive)
       = Returns None.
Proof.
  apply (FromContext_WithOptions None (Some 9%positive)
           {| Context_ := Some (valueCtx Background contextKey
                                  (optionsValue (Some 7%positive))) |}
           (valueCtx Background contextKey (optionsValue (Some 7%positive)))
           [Some (foreignKey "trace", foreignValue "string"); None]);
    reflexivity.
Defined.

(** X12. From a non-nil context in which [contextKey] is bound nowhere
    (whatever other keys are bound), [FromContext] returns the default it
    is given. *)
Theorem FromContext_default (c : Context) (def : OptionsPtr) :
  unbound c = true -> FromContext (Some c) def = Returns def.
Proof.
  intros Hc. unfold FromContext.
  assert (Value c contextKey = nilValue) as ->; [|reflexivity].
  induction c as [|parent IH k v|parent IH]; simpl in *.
  - reflexivity.
  - apply andb_true_iff in Hc as [Hk Hc].
    destruct (key_eqb k contextKey); [discriminate|]. by apply IH.
  - by apply IH.
Qed.

Lemma FromContext_default_witness :
  FromContext
    (Some (cancelCtx (valueCtx Background (foreignKey "trace") (foreignValue "string"))))
    (Some 9%positive)
  = Returns (Some 9%positive).
Proof.
  apply (FromContext_default
           (cancelCtx (valueCtx Background (foreignKey "trace") (foreignValue "string")))
           (Some 9%positive)).
  reflexivity.
Defined.

End TcpSpec.
